(** * jaba::CircularBuffer and jaba::CircularBufferMsgsT

    A shallow embedding of [circular_buffer.h] and the properties of its
    raw byte ring and of its length-prefixed message layer.

    Conventions of the embedding.
    - [size_t] is the 64-bit unsigned type; every [size_t] expression of the
      source that can leave the range is wrapped with [wrap].
    - [assert] is checked: a failed assertion ends the run ([None]).
    - [delete[]] of an array that was already released is undefined
      behaviour; the run ends there as well ([undefined]).
    - [create] is the call in which [new char[new_size]] returns. A call in
      which it throws [std::bad_alloc] leaves the object as it was and is no
      step of a run; nothing below says that an allocation succeeds.
    - An operation is a function from the object's state to an optional pair
      of its return value and the new state.
    - A [const void*] argument is [None] for the null pointer and [Some bytes]
      for a pointer to an array; an out-pointer is the list of bytes the
      call has copied into it.
    - The object representation of the marker is little-endian. *)

From Stdlib Require Import ZArith List Lia Bool.
From Stdlib Require Import Strings.Byte.
Import ListNotations.
Local Open Scope Z_scope.

(** ** Machine integers *)

Definition SIZE_MAX1 : Z := 2 ^ 64.

Definition wrap (z : Z) : Z := z mod SIZE_MAX1.

Definition len (l : list byte) : Z := Z.of_nat (length l).

(** ** Assertions and state: a small monad *)

Definition M (St A : Type) : Type := St -> option (A * St).

Definition ret {St A : Type} (a : A) : M St A := fun s => Some (a, s).

Definition bind {St A B : Type} (m : M St A) (k : A -> M St B) : M St B :=
  fun s => match m s with
           | Some (a, s') => k a s'
           | None => None
           end.

Definition get {St : Type} : M St St := fun s => Some (s, s).

Definition put {St : Type} (s : St) : M St unit := fun _ => Some (tt, s).

Definition assert {St : Type} (b : bool) : M St unit :=
  fun s => if b then Some (tt, s) else None.

(** Undefined behaviour: nothing is known of the run from here on. *)
Definition undefined {St A : Type} : M St A := fun _ => None.

Notation "x <- m ;; k" := (bind m (fun x => k))
  (at level 61, m at next level, right associativity).
Notation "m ;;; k" := (bind m (fun _ => k))
  (at level 61, right associativity).

(** ** Memory *)

(** The value of the member [buffer]: null, a live array, or the address of
    an array that [delete[]] has released. *)
Inductive storage : Type :=
| nullptr
| heap (bytes : list byte)
| dangling.

Definition nonnull (p : storage) : bool :=
  match p with nullptr => false | _ => true end.

(** [store off src buf]: the array [buf] after [src] has been copied to
    offset [off]. A copy that runs past the end of [buf] is undefined in
    C++; here the bytes that would land past the end are dropped. No call
    on a well-formed ring ([wf] below) copies past the end. *)
Fixpoint store (off : nat) (src buf : list byte) : list byte :=
  match buf with
  | [] => []
  | b :: buf' =>
      match off with
      | S off' => b :: store off' src buf'
      | O => match src with
             | [] => buf
             | x :: src' => x :: store O src' buf'
             end
      end
  end.

Definition slice (off n : Z) (l : list byte) : list byte :=
  firstn (Z.to_nat n) (skipn (Z.to_nat off) l).

(** [memcpy(buffer + off, src, |src|)]. Only a live array holds bytes. *)
Definition memcpy_in (off : Z) (src : list byte) (p : storage) : storage :=
  match p with
  | heap bytes => heap (store (Z.to_nat off) src bytes)
  | _ => p
  end.

(** [memcpy(out, buffer + off, n)]: the bytes that reach [out]. *)
Definition memcpy_out (off n : Z) (p : storage) : list byte :=
  match p with
  | heap bytes => slice off n bytes
  | _ => []
  end.

(** The bytes [(char* )data + off .. + n] of a caller's array. The caller
    owes an array of at least the size it passes; from a shorter one the
    bytes that exist are taken. *)
Definition pointee (data : option (list byte)) (off n : Z) : list byte :=
  match data with
  | Some d => slice off n d
  | None => []
  end.

Definition is_some {A : Type} (o : option A) : bool :=
  match o with Some _ => true | None => false end.

(** What [new char[n]] hands out: [n] bytes of indeterminate content, here
    the first [n] bytes of [junk], padded when [junk] is shorter. *)
Definition new_array (n : Z) (junk : list byte) : list byte :=
  firstn (Z.to_nat n) (junk ++ repeat x00 (Z.to_nat n)).

(** ** class CircularBuffer *)

Record CircularBuffer : Type := mkCircularBuffer {
  buffer : storage;
  allocated_size : Z;
  head : Z;
  tail : Z;
  free_space : Z
}.

(** The member initialisers of the class. *)
Definition CircularBuffer_init : CircularBuffer :=
  mkCircularBuffer nullptr 0 0 0 0.

Record CheckPoint : Type := mkCheckPoint {
  cp_head : Z;
  cp_tail : Z;
  cp_free_space : Z
}.

Definition set_buffer (p : storage) (s : CircularBuffer) : CircularBuffer :=
  mkCircularBuffer p (allocated_size s) (head s) (tail s) (free_space s).

Definition set_head (h : Z) (s : CircularBuffer) : CircularBuffer :=
  mkCircularBuffer (buffer s) (allocated_size s) h (tail s) (free_space s).

Definition set_tail (t : Z) (s : CircularBuffer) : CircularBuffer :=
  mkCircularBuffer (buffer s) (allocated_size s) (head s) t (free_space s).

Definition set_free_space (f : Z) (s : CircularBuffer) : CircularBuffer :=
  mkCircularBuffer (buffer s) (allocated_size s) (head s) (tail s) f.

(** [create], in a run where the allocation succeeds: [junk] stands for the
    indeterminate bytes of the new array. *)
Definition create (new_size : Z) (junk : list byte)
  : M CircularBuffer unit :=
  s <- get ;;
  assert (allocated_size s =? 0) ;;;
  assert (negb (nonnull (buffer s))) ;;;
  put (mkCircularBuffer (heap (new_array new_size junk)) new_size 0 0 new_size).

Definition clear : M CircularBuffer unit :=
  s <- get ;;
  put (set_head 0 (set_tail 0 s)).

(** [delete[] p], which leaves the value of [p] as it is: nothing happens
    for the null pointer, a live array is released and [p] dangles, and
    releasing the same array a second time is undefined. *)
Definition release (p : storage) : M CircularBuffer storage :=
  match p with
  | nullptr => ret nullptr
  | heap _ => ret dangling
  | dangling => undefined
  end.

Definition destroy : M CircularBuffer unit :=
  s <- get ;;
  p <- release (buffer s) ;;
  put (mkCircularBuffer p 0 (head s) (tail s) 0) ;;;
  clear.

Definition saveCheckPoint (s : CircularBuffer) : CheckPoint :=
  mkCheckPoint (head s) (tail s) (free_space s).

Definition loadCheckPoint (check_point : CheckPoint)
  : M CircularBuffer unit :=
  s <- get ;;
  put (mkCircularBuffer (buffer s) (allocated_size s)
         (cp_head check_point) (cp_tail check_point)
         (cp_free_space check_point)).

Definition isValid (s : CircularBuffer) : bool :=
  nonnull (buffer s) && (0 <? allocated_size s).

Definition empty (s : CircularBuffer) : bool :=
  free_space s =? allocated_size s.

Definition capacity (s : CircularBuffer) : Z := allocated_size s.

Definition bytesUsed (s : CircularBuffer) : Z :=
  wrap (allocated_size s - free_space s).

Definition bytesFree (s : CircularBuffer) : Z := free_space s.

Definition push (data : option (list byte)) (data_size : Z)
  : M CircularBuffer bool :=
  s <- get ;;
  if free_space s <? data_size then ret false
  else
    assert (is_some data) ;;;
    assert (0 <? data_size) ;;;
    assert (data_size <? allocated_size s) ;;;
    let s1 := set_free_space (wrap (free_space s - data_size)) s in
    let bytes_to_wrap := wrap (allocated_size s1 - head s1) in
    if data_size <=? bytes_to_wrap then
      let s2 := set_buffer
                  (memcpy_in (head s1) (pointee data 0 data_size) (buffer s1))
                  s1 in
      put (set_head (wrap (head s2 + data_size)) s2) ;;;
      ret true
    else
      let s2 := set_buffer
                  (memcpy_in (head s1) (pointee data 0 bytes_to_wrap)
                     (buffer s1))
                  s1 in
      let s3 := set_head (wrap (data_size - bytes_to_wrap)) s2 in
      put (set_buffer
             (memcpy_in 0 (pointee data bytes_to_wrap (head s3)) (buffer s3))
             s3) ;;;
      ret true.

(** [pop] returns its flag together with the bytes copied to [data]. *)
Definition pop (data_size : Z) : M CircularBuffer (bool * list byte) :=
  s <- get ;;
  let used_space := bytesUsed s in
  if used_space <? data_size then ret (false, [])
  else
    let bytes_to_wrap := wrap (allocated_size s - tail s) in
    if data_size <=? bytes_to_wrap then
      let out := memcpy_out (tail s) data_size (buffer s) in
      let s1 := set_tail (wrap (tail s + data_size)) s in
      put (set_free_space (wrap (free_space s1 + data_size)) s1) ;;;
      ret (true, out)
    else
      let out1 := memcpy_out (tail s) bytes_to_wrap (buffer s) in
      let s1 := set_tail (wrap (data_size - bytes_to_wrap)) s in
      let out2 := memcpy_out 0 (tail s1) (buffer s1) in
      put (set_free_space (wrap (free_space s1 + data_size)) s1) ;;;
      ret (true, out1 ++ out2).

(** ** class CircularBufferMsgsT<msg_separatr_size_t> *)

(** The unsigned types the template is instantiated with. *)
Inductive msg_separatr_size_t : Type :=
| uint8_t
| uint16_t
| uint32_t
| uint64_t.

Definition sizeof (t : msg_separatr_size_t) : Z :=
  match t with
  | uint8_t => 1
  | uint16_t => 2
  | uint32_t => 4
  | uint64_t => 8
  end.

(** The number of values of the marker type: [2 ^ W]. *)
Definition marker_range (t : msg_separatr_size_t) : Z := 2 ^ (8 * sizeof t).

(** The conversion [(msg_size_t)data_size]. *)
Definition narrow (t : msg_separatr_size_t) (z : Z) : Z :=
  z mod marker_range t.

Definition byte_of_Z (z : Z) : byte :=
  match Byte.of_N (Z.to_N z) with
  | Some b => b
  | None => x00
  end.

Definition Z_of_byte (b : byte) : Z := Z.of_N (Byte.to_N b).

(** The [n] bytes of the object representation of an unsigned value. *)
Fixpoint to_bytes (n : nat) (v : Z) : list byte :=
  match n with
  | O => []
  | S n' => byte_of_Z (v mod 256) :: to_bytes n' (v / 256)
  end.

Fixpoint of_bytes (l : list byte) : Z :=
  match l with
  | [] => 0
  | b :: l' => Z_of_byte b + 256 * of_bytes l'
  end.

Definition marker_bytes (t : msg_separatr_size_t) (v : Z) : list byte :=
  to_bytes (Z.to_nat (sizeof t)) v.

Record CircularBufferMsgsT : Type := mkCircularBufferMsgsT {
  base : CircularBuffer;
  nmsgs : Z
}.

Definition CircularBufferMsgsT_init : CircularBufferMsgsT :=
  mkCircularBufferMsgsT CircularBuffer_init 0.

(** A member function of the base class run on the derived object. *)
Definition inherited {A : Type} (m : M CircularBuffer A)
  : M CircularBufferMsgsT A :=
  fun s => match m (base s) with
           | Some (a, b) => Some (a, mkCircularBufferMsgsT b (nmsgs s))
           | None => None
           end.

Definition set_nmsgs (n : Z) (s : CircularBufferMsgsT) : CircularBufferMsgsT :=
  mkCircularBufferMsgsT (base s) n.

Definition createMsgs (new_size : Z) (junk : list byte)
  : M CircularBufferMsgsT unit :=
  inherited (create new_size junk).

Definition destroyMsgs : M CircularBufferMsgsT unit :=
  inherited destroy.

Definition numMsgs (s : CircularBufferMsgsT) : Z := nmsgs s.

Definition pushMsg (t : msg_separatr_size_t)
  (data : option (list byte)) (data_size : Z) : M CircularBufferMsgsT bool :=
  s <- get ;;
  if free_space (base s) <? wrap (data_size + sizeof t) then ret false
  else
    let msg_size := narrow t data_size in
    is_ok <- inherited (push (Some (marker_bytes t msg_size)) (sizeof t)) ;;
    assert is_ok ;;;
    is_ok2 <- inherited (push data data_size) ;;
    let is_ok := is_ok && is_ok2 in
    assert is_ok ;;;
    s' <- get ;;
    put (set_nmsgs (wrap (nmsgs s' + 1)) s') ;;;
    ret is_ok.

(** [popMsg] returns its [size_t] result together with the bytes copied to
    [data]; [false] is the value 0. *)
Definition popMsg (t : msg_separatr_size_t) (max_data_size : Z)
  : M CircularBufferMsgsT (Z * list byte) :=
  s <- get ;;
  let used_space := bytesUsed (base s) in
  if used_space <? sizeof t then ret (0, [])
  else
    let check_point := saveCheckPoint (base s) in
    r <- inherited (pop (sizeof t)) ;;
    let msg_size := of_bytes (snd r) in
    assert (fst r) ;;;
    if max_data_size <? msg_size then
      inherited (loadCheckPoint check_point) ;;;
      ret (0, [])
    else
      r2 <- inherited (pop msg_size) ;;
      assert (fst r2) ;;;
      s1 <- get ;;
      put (set_nmsgs (wrap (nmsgs s1 - 1)) s1) ;;;
      s2 <- get ;;
      assert ((0 <? nmsgs s2) || empty (base s2)) ;;;
      (if nmsgs s2 =? 0 then inherited clear else ret tt) ;;;
      ret (msg_size, snd r2).

(** ** Runs of several calls *)

(** Successive [pop] calls of the given sizes; the bytes of all of them, in
    order, when every call returns true. *)
Fixpoint pop_seq (sizes : list Z) (s : CircularBuffer)
  : option (list byte * CircularBuffer) :=
  match sizes with
  | [] => Some ([], s)
  | n :: sizes' =>
      match pop n s with
      | Some ((true, out), s') =>
          match pop_seq sizes' s' with
          | Some (outs, s'') => Some (out ++ outs, s'')
          | None => None
          end
      | _ => None
      end
  end.

(** The state after any [pop] calls, whatever they return. *)
Fixpoint pops (sizes : list Z) (s : CircularBuffer) : CircularBuffer :=
  match sizes with
  | [] => s
  | n :: sizes' =>
      match pop n s with
      | Some (_, s') => pops sizes' s'
      | None => s
      end
  end.

(** [k] successive [popMsg] calls with the same receive size: the result
    and bytes of each. *)
Fixpoint popMsgs (t : msg_separatr_size_t) (k : nat) (max_data_size : Z)
  (s : CircularBufferMsgsT)
  : option (list (Z * list byte) * CircularBufferMsgsT) :=
  match k with
  | O => Some ([], s)
  | S k' =>
      match popMsg t max_data_size s with
      | Some (r, s') =>
          match popMsgs t k' max_data_size s' with
          | Some (rs, s'') => Some (r :: rs, s'')
          | None => None
          end
      | None => None
      end
  end.

(** Successive [popMsg] calls, each with its own receive size: the result
    and bytes of each. *)
Fixpoint popMsgs_each (t : msg_separatr_size_t) (sizes : list Z)
  (s : CircularBufferMsgsT)
  : option (list (Z * list byte) * CircularBufferMsgsT) :=
  match sizes with
  | [] => Some ([], s)
  | max_data_size :: sizes' =>
      match popMsg t max_data_size s with
      | Some (r, s') =>
          match popMsgs_each t sizes' s' with
          | Some (rs, s'') => Some (r :: rs, s'')
          | None => None
          end
      | None => None
      end
  end.

Definition sum_sizes (sizes : list Z) : Z := fold_right Z.add 0 sizes.

(** ** Reachable states *)

Definition is_size_t (z : Z) : Prop := 0 <= z < SIZE_MAX1.

(** The states of a [CircularBuffer] after [create] and any calls of [push]
    and [pop] that return true. *)
Inductive reachable : CircularBuffer -> Prop :=
| reach_create : forall new_size junk s,
    is_size_t new_size ->
    create new_size junk CircularBuffer_init = Some (tt, s) ->
    reachable s
| reach_push : forall s data data_size s',
    reachable s ->
    is_size_t data_size ->
    push data data_size s = Some (true, s') ->
    reachable s'
| reach_pop : forall s data_size out s',
    reachable s ->
    is_size_t data_size ->
    pop data_size s = Some ((true, out), s') ->
    reachable s'.

(** The states of a [CircularBufferMsgsT] after the given number of calls of
    its public member functions that ran to their end. *)
Inductive reachableMsgs (t : msg_separatr_size_t)
  : nat -> CircularBufferMsgsT -> Prop :=
| reachm_init : reachableMsgs t O CircularBufferMsgsT_init
| reachm_create : forall n s new_size junk s',
    reachableMsgs t n s ->
    is_size_t new_size ->
    createMsgs new_size junk s = Some (tt, s') ->
    reachableMsgs t (S n) s'
| reachm_destroy : forall n s s',
    reachableMsgs t n s ->
    destroyMsgs s = Some (tt, s') ->
    reachableMsgs t (S n) s'
| reachm_pushMsg : forall n s data data_size r s',
    reachableMsgs t n s ->
    is_size_t data_size ->
    pushMsg t data data_size s = Some (r, s') ->
    reachableMsgs t (S n) s'
| reachm_popMsg : forall n s max_data_size r s',
    reachableMsgs t n s ->
    is_size_t max_data_size ->
    popMsg t max_data_size s = Some (r, s') ->
    reachableMsgs t (S n) s'.

(** ** Representation invariants *)

(** The bytes held by the ring, oldest first: [bytesUsed] bytes read
    circularly from [tail]. *)
Definition contents (s : CircularBuffer) : list byte :=
  match buffer s with
  | heap bytes => slice (tail s) (bytesUsed s) (bytes ++ bytes)
  | _ => []
  end.

Record wf (s : CircularBuffer) : Prop := mk_wf {
  wf_buffer : exists bytes, buffer s = heap bytes /\ len bytes = allocated_size s;
  wf_size : allocated_size s < SIZE_MAX1;
  wf_head : 0 <= head s <= allocated_size s;
  wf_tail : 0 <= tail s <= allocated_size s;
  wf_free : 0 <= free_space s <= allocated_size s;
  wf_cursors :
    tail s + (allocated_size s - free_space s) = head s \/
    tail s + (allocated_size s - free_space s) = head s + allocated_size s
}.

(** An object without storage: never created, or destroyed. *)
Definition unallocated (s : CircularBuffer) : Prop :=
  allocated_size s = 0 /\ free_space s = 0 /\ head s = 0 /\ tail s = 0 /\
  (buffer s = nullptr \/ buffer s = dangling).

(** One record of the byte stream: marker, then payload. *)
Definition record_bytes (t : msg_separatr_size_t) (d : list byte)
  : list byte :=
  marker_bytes t (len d) ++ d.

(** The ring holds exactly the records of the payloads [q], oldest first,
    each of a length the marker can represent. *)
Record framed (t : msg_separatr_size_t) (s : CircularBufferMsgsT)
  (q : list (list byte)) : Prop := mk_framed {
  fr_wf : wf (base s);
  fr_contents : contents (base s) = concat (map (record_bytes t) q);
  fr_count : nmsgs s = Z.of_nat (length q);
  fr_lengths : Forall (fun d => len d < marker_range t) q
}.

(** ** Runs of pushes *)

(** Successive [push] calls of whole arrays; the state after them when
    every call returns true. *)
Fixpoint push_seq (ds : list (list byte)) (s : CircularBuffer)
  : option CircularBuffer :=
  match ds with
  | [] => Some s
  | d :: ds' =>
      match push (Some d) (len d) s with
      | Some (true, s') => push_seq ds' s'
      | _ => None
      end
  end.

(** Successive [pushMsg] calls of whole arrays; the state after them when
    every call returns true. *)
Fixpoint pushMsgs (t : msg_separatr_size_t) (ds : list (list byte))
  (s : CircularBufferMsgsT) : option CircularBufferMsgsT :=
  match ds with
  | [] => Some s
  | d :: ds' =>
      match pushMsg t (Some d) (len d) s with
      | Some (true, s') => pushMsgs t ds' s'
      | _ => None
      end
  end.

(** The bytes the records of the payloads [q] occupy. *)
Definition records_size (t : msg_separatr_size_t) (q : list (list byte)) : Z :=
  fold_right (fun d acc => sizeof t + len d + acc) 0 q.

(** ** Concrete objects used in the examples below *)

Definition bytes_of (l : list Z) : list byte := map byte_of_Z l.

(** The state a call leaves behind (the state itself if the call aborts). *)
Definition after {St A : Type} (m : M St A) (s : St) : St :=
  match m s with
  | Some (_, s') => s'
  | None => s
  end.

Definition ring10 : CircularBuffer :=
  after (create 10 []) CircularBuffer_init.

Definition ring10_half : CircularBuffer :=
  after (push (Some (bytes_of [1; 2; 3; 4; 5])) 5) ring10.

Definition ring10_end : CircularBuffer :=
  after (push (Some (bytes_of [6; 7; 8; 9; 10])) 5) ring10_half.

Definition ring10_abc : CircularBuffer :=
  after (push (Some (bytes_of [65; 66; 67])) 3) ring10.

Definition msgs16 : CircularBufferMsgsT :=
  after (createMsgs 16 []) CircularBufferMsgsT_init.

Definition msgs16_abc : CircularBufferMsgsT :=
  after (pushMsg uint16_t (Some (bytes_of [65; 66; 67])) 3) msgs16.

Definition msgs16_drained : CircularBufferMsgsT :=
  after (popMsg uint16_t 10) msgs16_abc.

Definition msgs400 : CircularBufferMsgsT :=
  after (createMsgs 400 []) CircularBufferMsgsT_init.

Definition payload300 : list byte := repeat "A"%byte 300.

Definition msgs400_300 : CircularBufferMsgsT :=
  after (pushMsg uint8_t (Some payload300) 300) msgs400.

(** * Proofs *)

(** ** Arithmetic of [size_t] *)

Lemma SIZE_MAX1_pos : 0 < SIZE_MAX1.
Proof. reflexivity. Qed.

Lemma wrap_small (z : Z) : 0 <= z < SIZE_MAX1 -> wrap z = z.
Proof. intros H. unfold wrap. apply Z.mod_small. exact H. Qed.

Lemma wrap_range (z : Z) : 0 <= wrap z < SIZE_MAX1.
Proof. unfold wrap. apply Z.mod_pos_bound. exact SIZE_MAX1_pos. Qed.

Lemma sizeof_range (t : msg_separatr_size_t) : 1 <= sizeof t <= 8.
Proof. destruct t; simpl; lia. Qed.

Lemma marker_range_pos (t : msg_separatr_size_t) : 0 < marker_range t.
Proof. destruct t; reflexivity. Qed.

Lemma marker_range_le (t : msg_separatr_size_t) : marker_range t <= SIZE_MAX1.
Proof. destruct t; unfold marker_range, SIZE_MAX1; simpl; lia. Qed.

Lemma len_nonneg (l : list byte) : 0 <= len l.
Proof. unfold len. lia. Qed.

Lemma len_app (l1 l2 : list byte) : len (l1 ++ l2) = len l1 + len l2.
Proof. unfold len. rewrite length_app. lia. Qed.

Lemma len_nil : len [] = 0.
Proof. reflexivity. Qed.

(** Unfolding of the monad. *)
Ltac run_monad :=
  cbv [bind ret get put assert undefined inherited
       set_head set_tail set_free_space set_buffer set_nmsgs];
  cbn [buffer allocated_size head tail free_space base nmsgs].

(** ** Calls that fail leave the object as it was *)

Lemma push_no_space (data : option (list byte)) (data_size : Z)
  (s : CircularBuffer) :
  bytesFree s < data_size -> push data data_size s = Some (false, s).
Proof.
  unfold bytesFree, push. intros H. run_monad.
  destruct s as [b a h t f]; simpl in *.
  destruct (Z.ltb_spec f data_size); [reflexivity | lia].
Qed.

Lemma pop_no_data (data_size : Z) (s : CircularBuffer) :
  bytesUsed s < data_size -> pop data_size s = Some ((false, []), s).
Proof.
  unfold pop. intros H. run_monad.
  destruct (Z.ltb_spec (bytesUsed s) data_size); [reflexivity | lia].
Qed.

Lemma pushMsg_no_space (t : msg_separatr_size_t)
  (data : option (list byte)) (data_size : Z) (s : CircularBufferMsgsT) :
  bytesFree (base s) < wrap (data_size + sizeof t) ->
  pushMsg t data data_size s = Some (false, s).
Proof.
  unfold bytesFree, pushMsg. intros H. run_monad.
  destruct s as [[b a h tl f] n]; simpl in *.
  destruct (Z.ltb_spec f (wrap (data_size + sizeof t))); [reflexivity | lia].
Qed.

(** X22. A [push] of more bytes than are free, a [pop] of more bytes than
    are used and a [pushMsg] whose payload and marker together exceed the
    free bytes each return false and leave the whole object, hence
    [bytesUsed], [bytesFree], both cursors and [numMsgs], as it was. For
    [pushMsg] the sum is the one the code forms, in [size_t]; it is the plain
    sum for every payload size that leaves room for the marker below
    [2^64]. *)
Theorem failure_without_mutation (t : msg_separatr_size_t)
  (data : option (list byte)) (data_size : Z)
  (s : CircularBuffer) (m : CircularBufferMsgsT) :
  (bytesFree s < data_size -> push data data_size s = Some (false, s)) /\
  (bytesUsed s < data_size -> pop data_size s = Some ((false, []), s)) /\
  (bytesFree (base m) < wrap (data_size + sizeof t) ->
   pushMsg t data data_size m = Some (false, m)) /\
  (0 <= data_size -> data_size + sizeof t < SIZE_MAX1 ->
   bytesFree (base m) < data_size + sizeof t ->
   pushMsg t data data_size m = Some (false, m)).
Proof.
  split; [apply push_no_space | split; [apply pop_no_data |]].
  split; [apply pushMsg_no_space |].
  intros H0 H1 H. apply pushMsg_no_space.
  pose proof (sizeof_range t). rewrite wrap_small by lia. exact H.
Qed.

(** ** Checkpoints *)

Lemma pop_keeps (data_size : Z) (s : CircularBuffer) :
  exists r s', pop data_size s = Some (r, s') /\
    buffer s' = buffer s /\ allocated_size s' = allocated_size s /\
    head s' = head s.
Proof.
  unfold pop. run_monad.
  destruct (bytesUsed s <? data_size).
  - exists (false, []), s. auto.
  - destruct (data_size <=? wrap (allocated_size s - tail s));
      eexists; eexists; (split; [reflexivity |]); simpl; auto.
Qed.

Lemma pops_keep (sizes : list Z) (s : CircularBuffer) :
  buffer (pops sizes s) = buffer s /\
  allocated_size (pops sizes s) = allocated_size s /\
  head (pops sizes s) = head s.
Proof.
  revert s. induction sizes as [| n sizes IH]; intros s; simpl.
  - auto.
  - destruct (pop_keeps n s) as (r & s' & E & Hb & Ha & Hh).
    rewrite E. destruct (IH s') as (Ib & Ia & Ih).
    rewrite Ib, Ia, Ih. auto.
Qed.

(** C9. Whatever [pop] calls follow [saveCheckPoint], [loadCheckPoint] of the
    saved value gives back the state at the save: [head], [tail] and
    [free_space] are restored and the stored bytes were never touched, so a
    read after the restore is the read before. *)
Theorem checkpoint_roundtrip (s : CircularBuffer) (sizes : list Z) :
  loadCheckPoint (saveCheckPoint s) (pops sizes s) = Some (tt, s) /\
  forall data_size,
    (loadCheckPoint (saveCheckPoint s) ;;; pop data_size) (pops sizes s)
    = pop data_size s.
Proof.
  assert (E : loadCheckPoint (saveCheckPoint s) (pops sizes s) = Some (tt, s)).
  { destruct (pops_keep sizes s) as (Hb & Ha & Hh).
    unfold loadCheckPoint, saveCheckPoint, bind, get, put. simpl.
    rewrite Hb, Ha. destruct s; reflexivity. }
  split; [exact E |].
  intros data_size. unfold bind at 1. rewrite E. reflexivity.
Qed.

(** ** Zero-length payloads *)

Lemma push_zero (data : option (list byte)) (s : CircularBuffer) :
  push data 0 s = None \/ push data 0 s = Some (false, s).
Proof.
  unfold push. run_monad.
  destruct (free_space s <? 0); [right; reflexivity | left].
  destruct (is_some data); reflexivity.
Qed.

(** C2, as the code has it. With the 16-bit marker and at least
    [sizeof(marker)] bytes free, [pushMsg] of a 0-length payload passes the
    space check, and then ends in a failed assertion: at the latest the
    [data_size > 0] precondition of the payload [push]. It never returns. *)
Theorem pushMsg_empty_payload_asserts (data : option (list byte))
  (s : CircularBufferMsgsT) :
  sizeof uint16_t <= bytesFree (base s) ->
  pushMsg uint16_t data 0 s = None.
Proof.
  unfold bytesFree, pushMsg. simpl sizeof. intros H. run_monad.
  change (wrap (0 + 2)) with 2.
  destruct (Z.ltb_spec (free_space (base s)) 2); [lia |].
  destruct (push (Some (marker_bytes uint16_t (narrow uint16_t 0))) 2 (base s))
    as [[ok s1] |]; [| reflexivity].
  destruct ok; [| reflexivity]. cbn [base nmsgs].
  destruct (push_zero data s1) as [E | E]; rewrite E; reflexivity.
Qed.

(** ** Slices and copies *)

Lemma store_length (off : nat) (src buf : list byte) :
  length (store off src buf) = length buf.
Proof.
  revert off src. induction buf as [| b buf IH]; intros [| off] src; simpl;
    try reflexivity.
  - destruct src; simpl; [reflexivity | now rewrite IH].
  - now rewrite IH.
Qed.

Lemma store_eq (off : nat) (src buf : list byte) :
  (off + length src <= length buf)%nat ->
  store off src buf = firstn off buf ++ src ++ skipn (off + length src) buf.
Proof.
  revert off src. induction buf as [| b buf IH]; intros off src H; simpl in H.
  - assert (off = 0%nat) by lia. subst off.
    destruct src; simpl in *; [reflexivity | lia].
  - destruct off as [| off]; simpl.
    + destruct src as [| x src]; simpl; [reflexivity |].
      simpl in H. rewrite (IH 0%nat src) by (simpl; lia). reflexivity.
    + rewrite IH by lia. reflexivity.
Qed.

Lemma firstn_add (a b : nat) (l : list byte) :
  firstn (a + b) l = firstn a l ++ firstn b (skipn a l).
Proof.
  revert l. induction a as [| a IH]; intros l; simpl.
  - reflexivity.
  - destruct l as [| x l]; simpl.
    + now rewrite firstn_nil.
    + now rewrite IH.
Qed.

Lemma slice_zero (off : Z) (l : list byte) : slice off 0 l = [].
Proof. reflexivity. Qed.

Lemma slice_all (l : list byte) : slice 0 (len l) l = l.
Proof.
  unfold slice, len. simpl. rewrite Nat2Z.id. apply firstn_all.
Qed.

Lemma slice_add (off a b : Z) (l : list byte) :
  0 <= off -> 0 <= a -> 0 <= b ->
  slice off (a + b) l = slice off a l ++ slice (off + a) b l.
Proof.
  intros Ho Ha Hb. unfold slice.
  rewrite (Z2Nat.inj_add a b) by lia. rewrite firstn_add.
  rewrite skipn_skipn. rewrite (Z2Nat.inj_add off a) by lia.
  now rewrite (Nat.add_comm (Z.to_nat a)).
Qed.

Lemma slice_app_l (off n : Z) (l1 l2 : list byte) :
  0 <= off -> 0 <= n -> off + n <= len l1 ->
  slice off n (l1 ++ l2) = slice off n l1.
Proof.
  unfold slice, len. intros Ho Hn H.
  rewrite skipn_app, firstn_app, length_skipn.
  replace (Z.to_nat n - (length l1 - Z.to_nat off))%nat with 0%nat by lia.
  simpl. apply app_nil_r.
Qed.

Lemma slice_app_r (off n : Z) (l1 l2 : list byte) :
  len l1 <= off ->
  slice off n (l1 ++ l2) = slice (off - len l1) n l2.
Proof.
  unfold slice, len. intros H.
  rewrite skipn_app. rewrite skipn_all2 by lia. simpl.
  f_equal. f_equal. lia.
Qed.

Lemma len_slice (off n : Z) (l : list byte) :
  0 <= off -> 0 <= n -> off + n <= len l -> len (slice off n l) = n.
Proof.
  unfold slice, len. intros Ho Hn H.
  rewrite length_firstn, length_skipn. lia.
Qed.

Lemma firstn_slice (k off n : Z) (l : list byte) :
  0 <= k <= n -> firstn (Z.to_nat k) (slice off n l) = slice off k l.
Proof.
  unfold slice. intros H. rewrite firstn_firstn. f_equal. lia.
Qed.

Lemma skipn_slice (k off n : Z) (l : list byte) :
  0 <= off -> 0 <= k <= n ->
  skipn (Z.to_nat k) (slice off n l) = slice (off + k) (n - k) l.
Proof.
  unfold slice. intros Ho H. rewrite skipn_firstn_comm, skipn_skipn.
  f_equal; [lia | f_equal; lia].
Qed.

Lemma slice_firstn (off n : Z) (k : nat) (l : list byte) :
  0 <= off -> 0 <= n -> off + n <= Z.of_nat k ->
  slice off n (firstn k l) = slice off n l.
Proof.
  unfold slice. intros Ho Hn H.
  rewrite skipn_firstn_comm, firstn_firstn. f_equal. lia.
Qed.

Lemma slice_skipn (off n : Z) (k : nat) (l : list byte) :
  0 <= off ->
  slice off n (skipn k l) = slice (off + Z.of_nat k) n l.
Proof.
  unfold slice. intros Ho. rewrite skipn_skipn. f_equal. f_equal. lia.
Qed.

(** A copy leaves the bytes before it and after it alone, and reads back. *)
Lemma slice_store_before (a n off : Z) (src buf : list byte) :
  0 <= a -> 0 <= n -> a + n <= off -> off + len src <= len buf ->
  slice a n (store (Z.to_nat off) src buf) = slice a n buf.
Proof.
  unfold len. intros Ha Hn H Hr. rewrite store_eq by lia.
  rewrite slice_app_l; [| lia | lia | unfold len; rewrite length_firstn; lia].
  apply slice_firstn; lia.
Qed.

Lemma slice_store_after (a n off : Z) (src buf : list byte) :
  0 <= off -> off + len src <= a -> off + len src <= len buf ->
  slice a n (store (Z.to_nat off) src buf) = slice a n buf.
Proof.
  unfold len. intros Ho H Hr. rewrite store_eq by lia.
  rewrite slice_app_r by (unfold len; rewrite length_firstn; lia).
  rewrite slice_app_r by (unfold len; rewrite length_firstn; lia).
  rewrite slice_skipn by (unfold len; rewrite length_firstn; lia).
  f_equal. unfold len. rewrite length_firstn. lia.
Qed.

Lemma slice_store_exact (off : Z) (src buf : list byte) :
  0 <= off -> off + len src <= len buf ->
  slice off (len src) (store (Z.to_nat off) src buf) = src.
Proof.
  unfold len. intros Ho Hr. rewrite store_eq by lia.
  rewrite slice_app_r by (unfold len; rewrite length_firstn; lia).
  replace (off - len (firstn (Z.to_nat off) buf)) with 0
    by (unfold len; rewrite length_firstn; lia).
  rewrite slice_app_l by (unfold len; lia).
  apply slice_all.
Qed.

(** Reading a ring of [c] bytes through its doubling. *)
Lemma ring_read_fit (b : list byte) (t n : Z) :
  0 <= t -> 0 <= n -> t + n <= len b ->
  slice t n (b ++ b) = slice t n b.
Proof. intros. now apply slice_app_l. Qed.

Lemma ring_read_split (b : list byte) (t n : Z) :
  0 <= t <= len b -> len b <= t + n ->
  slice t n (b ++ b) = slice t (len b - t) b ++ slice 0 (t + n - len b) b.
Proof.
  intros Ht H.
  replace n with ((len b - t) + (t + n - len b)) at 1 by lia.
  rewrite slice_add by lia.
  rewrite slice_app_l by lia.
  rewrite slice_app_r by lia.
  f_equal. f_equal. lia.
Qed.

Lemma ring_read_shift (b : list byte) (t n : Z) :
  len b <= t -> 0 <= n -> t - len b + n <= len b ->
  slice t n (b ++ b) = slice (t - len b) n (b ++ b).
Proof.
  intros Ht Hn H. rewrite slice_app_r by lia.
  rewrite slice_app_l by lia. reflexivity.
Qed.

(** Writing [d] at the write cursor appends it to what the ring holds. *)
Lemma ring_write_fit (b d : list byte) (h t u : Z) :
  0 <= t <= len b -> 0 <= u -> 0 <= h ->
  h + len d <= len b -> u + len d <= len b ->
  t + u = h \/ t + u = h + len b ->
  slice t (u + len d)
    (store (Z.to_nat h) d b ++ store (Z.to_nat h) d b)
  = slice t u (b ++ b) ++ d.
Proof.
  intros Ht Hu Hh Hfit Hfree Hc.
  pose proof (len_nonneg d) as Hd.
  set (b' := store (Z.to_nat h) d b).
  assert (Hl : len b' = len b)
    by (unfold b', len; now rewrite store_length).
  destruct Hc as [Hc | Hc].
  - rewrite ring_read_fit by lia.
    rewrite (ring_read_fit b) by lia.
    rewrite slice_add by lia. f_equal.
    + unfold b'. apply slice_store_before; lia.
    + replace (t + u) with h by lia. unfold b'.
      apply slice_store_exact; lia.
  - rewrite (ring_read_split b') by lia.
    rewrite (ring_read_split b) by lia.
    rewrite Hl.
    replace (t + (u + len d) - len b) with (h + len d) by lia.
    replace (t + u - len b) with h by lia.
    rewrite (slice_add 0 h (len d)) by lia.
    rewrite app_assoc. f_equal; [f_equal |].
    + unfold b'. apply slice_store_after; lia.
    + unfold b'. apply slice_store_before; lia.
    + unfold b'. apply slice_store_exact; lia.
Qed.

Lemma ring_write_split (b d : list byte) (h t u : Z) :
  0 <= t <= len b -> 0 <= u -> 0 <= h <= len b ->
  len b < h + len d -> u + len d <= len b ->
  t + u = h ->
  let b1 := store (Z.to_nat h) (slice 0 (len b - h) d) b in
  let b2 := store (Z.to_nat 0) (slice (len b - h) (h + len d - len b) d) b1 in
  slice t (u + len d) (b2 ++ b2) = slice t u (b ++ b) ++ d.
Proof.
  intros Ht Hu Hh Hover Hfree Hc b1 b2.
  set (d1 := slice 0 (len b - h) d) in *.
  set (d2 := slice (len b - h) (h + len d - len b) d) in *.
  assert (Hd1 : len d1 = len b - h) by (unfold d1; apply len_slice; lia).
  assert (Hd2 : len d2 = h + len d - len b)
    by (unfold d2; apply len_slice; lia).
  assert (Hd : d = d1 ++ d2).
  { unfold d1, d2. rewrite <- (slice_all d) at 1.
    replace (len d) with ((len b - h) + (h + len d - len b)) at 1 by lia.
    rewrite slice_add by lia. reflexivity. }
  assert (Hl1 : len b1 = len b)
    by (unfold b1, len; now rewrite store_length).
  assert (Hl2 : len b2 = len b)
    by (unfold b2, len; rewrite store_length; exact Hl1).
  rewrite (ring_read_split b2) by lia.
  rewrite (ring_read_fit b) by lia.
  rewrite Hl2.
  replace (len b - t) with (u + len d1) by lia.
  rewrite slice_add by lia.
  replace (t + (u + len d) - len b) with (len d2) by lia.
  replace (slice t u b ++ d) with (slice t u b ++ d1 ++ d2)
    by (now rewrite <- Hd).
  rewrite <- app_assoc. f_equal; [| f_equal].
  - unfold b2. rewrite slice_store_after by lia.
    unfold b1. apply slice_store_before; lia.
  - replace (t + u) with h by lia.
    unfold b2. rewrite slice_store_after by lia.
    unfold b1. apply slice_store_exact; lia.
  - unfold b2. apply slice_store_exact; lia.
Qed.

(** ** [push] and [pop] on a well-formed ring *)

Ltac fields := cbn [buffer allocated_size head tail free_space base nmsgs].

Lemma wf_used (s : CircularBuffer) :
  wf s -> bytesUsed s = allocated_size s - free_space s.
Proof.
  intros [_ Hs _ _ Hf _]. unfold bytesUsed. apply wrap_small. lia.
Qed.

Lemma contents_length (s : CircularBuffer) :
  wf s -> len (contents s) = bytesUsed s.
Proof.
  intros W. pose proof (wf_used s W) as U.
  destruct W as [(b & Hb & Hl) Hs Hh Ht Hf Hc].
  unfold contents. rewrite Hb, U. apply len_slice; rewrite ?len_app; lia.
Qed.

Lemma pop_spec (n : Z) (s : CircularBuffer) :
  wf s -> 0 <= n <= bytesUsed s ->
  exists s',
    pop n s = Some ((true, firstn (Z.to_nat n) (contents s)), s') /\
    wf s' /\
    buffer s' = buffer s /\
    allocated_size s' = allocated_size s /\
    head s' = head s /\
    free_space s' = free_space s + n /\
    (tail s' = tail s + n \/ tail s' = tail s + n - allocated_size s) /\
    contents s' = skipn (Z.to_nat n) (contents s).
Proof.
  intros W Hn. pose proof (wf_used s W) as U. rewrite U in Hn.
  destruct W as [(b & Hb & Hl) Hs Hh Ht Hf Hc].
  destruct s as [p c h t f]; simpl in *. subst p.
  unfold pop, contents, bytesUsed. run_monad. cbn [memcpy_out].
  rewrite (wrap_small (c - f)) by lia.
  destruct (Z.ltb_spec (c - f) n); [lia |].
  rewrite (wrap_small (c - t)) by lia.
  rewrite firstn_slice by lia.
  rewrite skipn_slice by lia.
  destruct (Z.leb_spec n (c - t)).
  - rewrite (wrap_small (t + n)) by lia. rewrite (wrap_small (f + n)) by lia.
    eexists. split.
    { rewrite (ring_read_fit b) by lia. reflexivity. }
    split.
    { constructor; simpl; try lia. exists b; auto. }
    repeat split; fields; try reflexivity; try lia.
    rewrite wrap_small by lia. f_equal. lia.
  - rewrite (wrap_small (n - (c - t))) by lia.
    rewrite (wrap_small (f + n)) by lia.
    eexists. split.
    { rewrite (ring_read_split b) by lia. rewrite Hl.
      replace (t + n - c) with (n - (c - t)) by lia. reflexivity. }
    split.
    { constructor; simpl; try lia. exists b; auto. }
    repeat split; fields; try reflexivity; try lia.
    rewrite wrap_small by lia.
    rewrite (ring_read_shift b (t + n)) by lia.
    rewrite Hl. f_equal; lia.
Qed.

Lemma push_spec (d : list byte) (n : Z) (s : CircularBuffer) :
  wf s -> 0 < n < allocated_size s -> n <= free_space s ->
  exists s',
    push (Some d) n s = Some (true, s') /\
    wf s' /\
    allocated_size s' = allocated_size s /\
    tail s' = tail s /\
    free_space s' = free_space s - n /\
    (head s' = head s + n \/ head s' = head s + n - allocated_size s) /\
    (len d = n -> contents s' = contents s ++ d).
Proof.
  intros W Hn Hfree.
  destruct W as [(b & Hb & Hl) Hs Hh Ht Hf Hc].
  destruct s as [p c h t f]; simpl in *. subst p.
  unfold push, contents, bytesUsed. run_monad. cbn [memcpy_in is_some pointee].
  destruct (Z.ltb_spec f n); [lia |].
  destruct (Z.ltb_spec 0 n); [| lia].
  destruct (Z.ltb_spec n c); [| lia].
  rewrite (wrap_small (f - n)) by lia.
  rewrite (wrap_small (c - h)) by lia.
  rewrite (wrap_small (c - f)) by lia.
  destruct (Z.leb_spec n (c - h)).
  - rewrite (wrap_small (h + n)) by lia.
    eexists. split; [reflexivity |].
    split.
    { constructor; simpl; try lia.
      eexists. split; [reflexivity |]. unfold len. now rewrite store_length. }
    repeat split; fields; try reflexivity; try lia.
    intros Hd. rewrite wrap_small by lia.
    rewrite <- Hd, slice_all.
    replace (c - (f - len d)) with ((c - f) + len d) by lia.
    apply ring_write_fit; lia.
  - rewrite (wrap_small (n - (c - h))) by lia.
    eexists. split; [reflexivity |].
    split.
    { constructor; simpl; try lia.
      eexists. split; [reflexivity |]. unfold len.
      now rewrite !store_length. }
    repeat split; fields; try reflexivity; try lia.
    intros Hd. rewrite wrap_small by lia.
    replace (c - (f - n)) with ((c - f) + len d) by lia.
    replace (n - (c - h)) with (h + len d - len b) by lia.
    rewrite <- Hl.
    apply ring_write_split; lia.
Qed.

Lemma push_true_pre (data : option (list byte)) (n : Z)
  (s s' : CircularBuffer) :
  push data n s = Some (true, s') ->
  exists d, data = Some d /\ n <= free_space s /\ 0 < n < allocated_size s.
Proof.
  unfold push. run_monad.
  destruct (Z.ltb_spec (free_space s) n); [discriminate |].
  destruct data as [d |]; cbn [is_some]; [| discriminate].
  destruct (Z.ltb_spec 0 n); [| discriminate].
  destruct (Z.ltb_spec n (allocated_size s)); [| discriminate].
  intros _. exists d. repeat split; (reflexivity || lia).
Qed.

Lemma pop_true_pre (n : Z) (out : list byte) (s s' : CircularBuffer) :
  pop n s = Some ((true, out), s') -> n <= bytesUsed s.
Proof.
  unfold pop. run_monad.
  destruct (Z.ltb_spec (bytesUsed s) n); [discriminate | intros _; lia].
Qed.

Lemma new_array_length (n : Z) (junk : list byte) :
  0 <= n -> len (new_array n junk) = n.
Proof.
  intros H. unfold len, new_array.
  rewrite length_firstn, length_app, repeat_length. lia.
Qed.

Lemma create_spec (new_size : Z) (junk : list byte) (s : CircularBuffer) :
  is_size_t new_size ->
  create new_size junk CircularBuffer_init = Some (tt, s) ->
  wf s /\ allocated_size s = new_size /\ free_space s = new_size /\
  head s = 0 /\ tail s = 0.
Proof.
  intros [H0 H1]. unfold create, CircularBuffer_init. run_monad. simpl.
  intros E. injection E as <-. split; [| fields; auto].
  constructor; fields; try lia.
  eexists. split; [reflexivity |]. now apply new_array_length.
Qed.

Lemma reachable_wf (s : CircularBuffer) : reachable s -> wf s.
Proof.
  induction 1 as [n junk s Hn E | s data n s' _ IH Hn E | s n out s' _ IH Hn E].
  - now apply (create_spec n junk s).
  - destruct (push_true_pre _ _ _ _ E) as (d & -> & Hf & Hr).
    destruct (push_spec d n s IH Hr Hf) as (s'' & E' & W & _).
    rewrite E in E'. injection E' as ->. exact W.
  - pose proof (pop_true_pre _ _ _ _ E) as Hu.
    destruct Hn as [Hn _].
    destruct (pop_spec n s IH (conj Hn Hu)) as (s'' & E' & W & _).
    rewrite E in E'. injection E' as _ ->. exact W.
Qed.

(** ** Cursor range *)

(** C3, as the code has it. In every state reached by [create] and calls of
    [push] and [pop] that return true, both cursors are offsets between 0 and
    the capacity, the capacity included: a cursor that reaches the end of the
    storage stays there until the next copy wraps it. A [push] moves [head],
    and a [pop] moves [tail], by the byte count modulo the capacity. *)
Theorem cursors_within_capacity (s : CircularBuffer) :
  reachable s ->
  (0 <= head s <= capacity s /\ 0 <= tail s <= capacity s) /\
  (forall data n s', push data n s = Some (true, s') ->
     tail s' = tail s /\
     (head s' = head s + n \/ head s' = head s + n - capacity s)) /\
  (forall n out s', is_size_t n -> pop n s = Some ((true, out), s') ->
     head s' = head s /\
     (tail s' = tail s + n \/ tail s' = tail s + n - capacity s)).
Proof.
  intros R. pose proof (reachable_wf s R) as W. unfold capacity.
  split; [| split].
  - destruct W as [_ _ Hh Ht _ _]. split; assumption.
  - intros data n s' E.
    destruct (push_true_pre _ _ _ _ E) as (d & -> & Hf & Hr).
    destruct (push_spec d n s W Hr Hf) as (s'' & E' & _ & _ & T & _ & Hd & _).
    rewrite E in E'. injection E' as ->. split; assumption.
  - intros n out s' [Hn _] E.
    pose proof (pop_true_pre _ _ _ _ E) as Hu.
    destruct (pop_spec n s W (conj Hn Hu))
      as (s'' & E' & _ & _ & _ & Hh & _ & Ht & _).
    rewrite E in E'. injection E' as _ ->. split; assumption.
Qed.

Lemma ring10_reachable : reachable ring10.
Proof.
  apply (reach_create 10 []); [unfold is_size_t, SIZE_MAX1; lia | reflexivity].
Qed.

Lemma ring10_half_reachable : reachable ring10_half.
Proof.
  apply (reach_push ring10 (Some (bytes_of [1; 2; 3; 4; 5])) 5).
  - exact ring10_reachable.
  - unfold is_size_t, SIZE_MAX1; lia.
  - reflexivity.
Qed.

Lemma ring10_end_reachable : reachable ring10_end.
Proof.
  apply (reach_push ring10_half (Some (bytes_of [6; 7; 8; 9; 10])) 5).
  - exact ring10_half_reachable.
  - unfold is_size_t, SIZE_MAX1; lia.
  - reflexivity.
Qed.

Lemma ring10_abc_reachable : reachable ring10_abc.
Proof.
  apply (reach_push ring10 (Some (bytes_of [65; 66; 67])) 3).
  - exact ring10_reachable.
  - unfold is_size_t, SIZE_MAX1; lia.
  - reflexivity.
Qed.

(** After [create(10)] and two pushes of 5 bytes the write cursor equals the
    capacity: it is not strictly below it. *)
Lemma cursor_range_counterexample :
  reachable ring10_end /\ head ring10_end = 10 /\ capacity ring10_end = 10 /\
  ~ (head ring10_end < capacity ring10_end).
Proof.
  split; [exact ring10_end_reachable |].
  split; [reflexivity |]. split; [reflexivity |].
  vm_compute. intros H. discriminate H.
Qed.

Lemma cursors_within_capacity_witness :
  (0 <= head ring10_end <= capacity ring10_end /\
   0 <= tail ring10_end <= capacity ring10_end) /\
  (forall data n s', push data n ring10_end = Some (true, s') ->
     tail s' = tail ring10_end /\
     (head s' = head ring10_end + n \/
      head s' = head ring10_end + n - capacity ring10_end)) /\
  (forall n out s', is_size_t n ->
     pop n ring10_end = Some ((true, out), s') ->
     head s' = head ring10_end /\
     (tail s' = tail ring10_end + n \/
      tail s' = tail ring10_end + n - capacity ring10_end)).
Proof.
  apply (cursors_within_capacity ring10_end).
  apply (reach_push ring10_half (Some (bytes_of [6; 7; 8; 9; 10])) 5).
  - apply (reach_push ring10 (Some (bytes_of [1; 2; 3; 4; 5])) 5).
    + apply (reach_create 10 []).
      * unfold is_size_t, SIZE_MAX1. lia.
      * reflexivity.
    + unfold is_size_t, SIZE_MAX1. lia.
    + reflexivity.
  - unfold is_size_t, SIZE_MAX1. lia.
  - reflexivity.
Defined.

(** ** Lifecycle *)

(** C10. On an object that was created (and then used by any successful
    pushes and pops), [destroy] zeroes the sizes and the cursors and leaves
    [buffer] non-null, pointing at the released array. A [create] that
    follows fails its assertion [buffer == nullptr] although
    [allocated_size == 0] holds: the object cannot be created again. *)
Theorem create_after_destroy_asserts (s1 s2 : CircularBuffer)
  (new_size : Z) (junk : list byte) :
  reachable s1 ->
  destroy s1 = Some (tt, s2) ->
  allocated_size s2 = 0 /\ free_space s2 = 0 /\ head s2 = 0 /\ tail s2 = 0 /\
  buffer s2 = dangling /\
  create new_size junk s2 = None.
Proof.
  intros R. destruct (reachable_wf s1 R) as [(b & Hb & _) _ _ _ _ _].
  unfold create, destroy, clear. cbv [bind get]. rewrite Hb.
  cbn [release]. run_monad.
  intros E. injection E as <-. fields. cbn [nonnull negb].
  repeat split; reflexivity.
Qed.

(** ** Raw round trip *)

Lemma sum_sizes_nonneg (sizes : list Z) :
  Forall (fun n => 0 <= n) sizes -> 0 <= sum_sizes sizes.
Proof.
  induction 1 as [| n sizes Hn _ IH]; simpl; lia.
Qed.

Lemma firstn_len_app (a b : list byte) :
  firstn (Z.to_nat (len a)) (a ++ b) = a.
Proof.
  unfold len. rewrite Nat2Z.id, firstn_app, Nat.sub_diag, firstn_all.
  simpl. apply app_nil_r.
Qed.

Lemma skipn_len_app (a b : list byte) :
  skipn (Z.to_nat (len a)) (a ++ b) = b.
Proof.
  unfold len. rewrite Nat2Z.id, skipn_app, Nat.sub_diag, skipn_all.
  reflexivity.
Qed.

Lemma len_zero_nil (l : list byte) : len l = 0 -> l = [].
Proof. destruct l; [reflexivity | unfold len; simpl; lia]. Qed.

Lemma pop_seq_spec (sizes : list Z) (s : CircularBuffer) :
  wf s -> Forall (fun n => 0 <= n) sizes -> sum_sizes sizes <= bytesUsed s ->
  exists s',
    pop_seq sizes s
    = Some (firstn (Z.to_nat (sum_sizes sizes)) (contents s), s') /\
    wf s' /\
    contents s' = skipn (Z.to_nat (sum_sizes sizes)) (contents s).
Proof.
  intros W F. revert s W.
  induction F as [| n sizes Hn F IH]; intros s W Hsum; simpl in *.
  - exists s. auto.
  - pose proof (sum_sizes_nonneg sizes F) as Hs.
    destruct (pop_spec n s W) as (s1 & E & W1 & _ & Ha & _ & Hf & _ & C1);
      [lia |].
    rewrite E.
    destruct (IH s1 W1) as (s2 & E2 & W2 & C2).
    { rewrite (wf_used s W) in Hsum. rewrite (wf_used s1 W1). lia. }
    rewrite E2. exists s2. split; [| split; [exact W2 |]].
    + rewrite C1. rewrite Z2Nat.inj_add by lia. now rewrite firstn_add.
    + rewrite C2, C1, skipn_skipn. f_equal. lia.
Qed.

(** C6, as the code has it. When [push] of [d] returns true in a reachable
    state, the [bytesUsed] bytes that were held before come out first, and
    then pops of any sizes that total [|d|] return exactly the bytes of [d]
    in the order they were written, whether or not the push or a pop wraps
    round the end of the storage. On an empty ring the pops return [d] at
    once. *)
Theorem push_pop_fifo (s s' : CircularBuffer) (d : list byte)
  (sizes : list Z) :
  reachable s ->
  push (Some d) (len d) s = Some (true, s') ->
  Forall (fun n => 0 <= n) sizes ->
  sum_sizes sizes = len d ->
  (exists s1 s2,
     pop (bytesUsed s) s' = Some ((true, contents s), s1) /\
     pop_seq sizes s1 = Some (d, s2)) /\
  (bytesUsed s = 0 -> exists s2, pop_seq sizes s' = Some (d, s2)).
Proof.
  intros R E F Hsum. pose proof (reachable_wf s R) as W.
  destruct (push_true_pre _ _ _ _ E) as (d' & _ & Hf & Hr).
  destruct (push_spec d (len d) s W Hr Hf)
    as (s'' & E' & W' & Ha & _ & Hfree & _ & C).
  rewrite E in E'. injection E' as <-. specialize (C eq_refl).
  pose proof (contents_length s W) as L.
  pose proof (wf_used s W) as U. pose proof (wf_used s' W') as U'.
  pose proof (len_nonneg (contents s)) as Lc.
  split.
  - destruct (pop_spec (bytesUsed s) s' W') as (s1 & E1 & W1 & _ & _ & _ & _ & _ & C1);
      [lia |].
    rewrite C in E1, C1. rewrite <- L in E1, C1.
    rewrite firstn_len_app in E1. rewrite skipn_len_app in C1.
    destruct (pop_seq_spec sizes s1 W1 F) as (s2 & E2 & _).
    { rewrite <- (contents_length s1 W1), C1. lia. }
    exists s1, s2. split; [rewrite <- L; exact E1 |].
    rewrite E2, C1, Hsum. unfold len. rewrite Nat2Z.id, firstn_all.
    reflexivity.
  - intros Z0. rewrite Z0 in L. apply len_zero_nil in L. rewrite L in C.
    simpl in C.
    destruct (pop_seq_spec sizes s' W' F) as (s2 & E2 & _).
    { rewrite <- (contents_length s' W'), C. lia. }
    exists s2. rewrite E2, C, Hsum. unfold len.
    rewrite Nat2Z.id, firstn_all. reflexivity.
Qed.

(** A ring that already holds ABC: pushing DE succeeds, and the pop of two
    bytes that follows returns AB, not the two bytes pushed. *)
Lemma push_pop_counterexample :
  ~ (forall s s' d,
       reachable s ->
       push (Some d) (len d) s = Some (true, s') ->
       exists s'', pop (len d) s' = Some ((true, d), s'')).
Proof.
  intros H.
  destruct (H ring10_abc
              (after (push (Some (bytes_of [68; 69])) 2) ring10_abc)
              (bytes_of [68; 69]) ring10_abc_reachable eq_refl)
    as (s'' & E).
  vm_compute in E. discriminate E.
Qed.

Lemma push_pop_fifo_witness :
  (exists s1 s2,
     pop (bytesUsed ring10_abc)
       (after (push (Some (bytes_of [68; 69])) 2) ring10_abc)
     = Some ((true, contents ring10_abc), s1) /\
     pop_seq [1; 0; 1] s1 = Some (bytes_of [68; 69], s2)) /\
  (bytesUsed ring10_abc = 0 ->
   exists s2,
     pop_seq [1; 0; 1] (after (push (Some (bytes_of [68; 69])) 2) ring10_abc)
     = Some (bytes_of [68; 69], s2)).
Proof.
  apply (push_pop_fifo ring10_abc
           (after (push (Some (bytes_of [68; 69])) 2) ring10_abc)
           (bytes_of [68; 69]) [1; 0; 1]).
  - apply (reach_push ring10 (Some (bytes_of [65; 66; 67])) 3).
    + apply (reach_create 10 []).
      * unfold is_size_t, SIZE_MAX1. lia.
      * reflexivity.
    + unfold is_size_t, SIZE_MAX1. lia.
    + reflexivity.
  - reflexivity.
  - repeat constructor; discriminate.
  - reflexivity.
Defined.

(** ** The marker *)

Lemma Z_of_byte_of_Z (z : Z) : 0 <= z < 256 -> Z_of_byte (byte_of_Z z) = z.
Proof.
  intros H. unfold Z_of_byte, byte_of_Z.
  destruct (Byte.of_N (Z.to_N z)) as [b |] eqn:E.
  - apply Byte.to_of_N in E. rewrite E. lia.
  - apply Byte.of_N_None_iff in E. lia.
Qed.

Lemma Z_of_byte_nonneg (b : byte) : 0 <= Z_of_byte b.
Proof. unfold Z_of_byte. lia. Qed.

Lemma of_bytes_nonneg (l : list byte) : 0 <= of_bytes l.
Proof.
  induction l as [| b l IH]; cbn [of_bytes]; [lia |].
  pose proof (Z_of_byte_nonneg b). lia.
Qed.

Lemma of_to_bytes (n : nat) (v : Z) :
  of_bytes (to_bytes n v) = v mod 256 ^ Z.of_nat n.
Proof.
  revert v. induction n as [| n IH]; intros v.
  - simpl. now rewrite Z.mod_1_r.
  - cbn [to_bytes of_bytes]. rewrite IH.
    rewrite Z_of_byte_of_Z by (apply Z.mod_pos_bound; lia).
    rewrite Nat2Z.inj_succ, Z.pow_succ_r by lia.
    rewrite Z.rem_mul_r by lia. reflexivity.
Qed.

Lemma to_bytes_length (n : nat) (v : Z) : length (to_bytes n v) = n.
Proof.
  revert v. induction n as [| n IH]; intros v; simpl; [| rewrite IH];
    reflexivity.
Qed.

Lemma marker_bytes_len (t : msg_separatr_size_t) (v : Z) :
  len (marker_bytes t v) = sizeof t.
Proof.
  unfold len, marker_bytes. rewrite to_bytes_length.
  pose proof (sizeof_range t). lia.
Qed.

Lemma marker_decode (t : msg_separatr_size_t) (v : Z) :
  of_bytes (marker_bytes t v) = narrow t v.
Proof.
  unfold marker_bytes, narrow. rewrite of_to_bytes.
  destruct t; reflexivity.
Qed.

Lemma narrow_small (t : msg_separatr_size_t) (v : Z) :
  0 <= v < marker_range t -> narrow t v = v.
Proof. intros H. unfold narrow. now apply Z.mod_small. Qed.

(** ** [pushMsg] on a well-formed ring *)

Lemma pushMsg_spec (t : msg_separatr_size_t) (d : list byte)
  (s : CircularBufferMsgsT) :
  wf (base s) -> 1 <= len d -> len d + sizeof t <= free_space (base s) ->
  exists s',
    pushMsg t (Some d) (len d) s = Some (true, s') /\
    wf (base s') /\
    contents (base s')
    = contents (base s) ++ marker_bytes t (narrow t (len d)) ++ d /\
    nmsgs s' = wrap (nmsgs s + 1) /\
    allocated_size (base s') = allocated_size (base s) /\
    free_space (base s') = free_space (base s) - sizeof t - len d.
Proof.
  intros W Hd Hfree. pose proof (sizeof_range t) as Hs.
  pose proof W as [_ Hsz _ _ Hf _].
  destruct (push_spec (marker_bytes t (narrow t (len d))) (sizeof t) (base s) W)
    as (s1 & E1 & W1 & A1 & _ & F1 & _ & C1); [lia | lia |].
  specialize (C1 (marker_bytes_len t _)).
  destruct (push_spec d (len d) s1 W1)
    as (s2 & E2 & W2 & A2 & _ & F2 & _ & C2); [lia | lia |].
  specialize (C2 eq_refl).
  unfold pushMsg. run_monad.
  rewrite (wrap_small (len d + sizeof t)) by lia.
  destruct (Z.ltb_spec (free_space (base s)) (len d + sizeof t)); [lia |].
  rewrite E1. fields. rewrite E2. fields. cbn [andb].
  eexists. split; [reflexivity |]. fields.
  split; [exact W2 |]. split; [| repeat split; try lia].
  - rewrite C2, C1. now rewrite <- app_assoc.
Qed.

(** ** [popMsg] on a well-framed ring *)

Lemma records_count (t : msg_separatr_size_t) (q : list (list byte)) :
  Z.of_nat (length q) <= len (concat (map (record_bytes t) q)).
Proof.
  induction q as [| d q IH]; cbn [length map concat].
  - unfold len. simpl. lia.
  - unfold record_bytes at 1. rewrite !len_app, marker_bytes_len.
    pose proof (sizeof_range t). pose proof (len_nonneg d). lia.
Qed.

Lemma wf_clear (s : CircularBuffer) :
  wf s -> free_space s = allocated_size s ->
  wf (mkCircularBuffer (buffer s) (allocated_size s) 0 0 (free_space s)) /\
  contents (mkCircularBuffer (buffer s) (allocated_size s) 0 0 (free_space s))
  = [].
Proof.
  intros [(b & Hb & Hl) Hs Hh Ht Hf Hc] E. split.
  - constructor; fields; try lia. exists b; auto.
  - unfold contents, bytesUsed. fields. rewrite Hb, E, Z.sub_diag.
    reflexivity.
Qed.

Lemma popMsg_framed (t : msg_separatr_size_t) (s : CircularBufferMsgsT)
  (d : list byte) (q : list (list byte)) (max_data_size : Z) :
  framed t s (d :: q) ->
  (max_data_size < len d ->
   popMsg t max_data_size s = Some ((0, []), s)) /\
  (len d <= max_data_size ->
   exists s',
     popMsg t max_data_size s = Some ((len d, d), s') /\ framed t s' q).
Proof.
  intros [W C N F]. pose proof (sizeof_range t) as Hs.
  pose proof (len_nonneg d) as Hd.
  set (rest := concat (map (record_bytes t) q)) in *.
  assert (C' : contents (base s) = marker_bytes t (len d) ++ d ++ rest).
  { rewrite C. cbn [map concat]. unfold record_bytes at 1.
    now rewrite <- app_assoc. }
  pose proof (contents_length _ W) as L. rewrite C' in L.
  rewrite !len_app, marker_bytes_len in L.
  pose proof (len_nonneg rest) as Hr.
  assert (Hq : Z.of_nat (length q) <= len rest)
    by (apply records_count).
  pose proof (wf_used _ W) as U.
  pose proof W as [_ Hsz _ _ Hfr _].
  inversion F as [| d0 q0 Fd Fq]; subst d0 q0.
  destruct (pop_spec (sizeof t) (base s) W)
    as (s1 & E1 & W1 & B1 & A1 & H1 & F1 & _ & C1); [lia |].
  rewrite C' in E1, C1. rewrite <- (marker_bytes_len t (len d)) in E1, C1.
  rewrite firstn_len_app in E1. rewrite skipn_len_app in C1.
  rewrite (marker_bytes_len t (len d)) in E1.
  unfold popMsg. run_monad.
  destruct (Z.ltb_spec (bytesUsed (base s)) (sizeof t)); [lia |].
  rewrite E1. fields. cbn [fst snd].
  rewrite marker_decode, narrow_small by lia.
  split; intros Hmax.
  - destruct (Z.ltb_spec max_data_size (len d)); [| lia].
    unfold loadCheckPoint, saveCheckPoint. run_monad.
    cbn [cp_head cp_tail cp_free_space]. rewrite B1, A1.
    destruct s as [[b a h tl f] n]. reflexivity.
  - destruct (Z.ltb_spec max_data_size (len d)); [lia |].
    pose proof (wf_used _ W1) as U1.
    destruct (pop_spec (len d) s1 W1)
      as (s2 & E2 & W2 & B2 & A2 & H2 & F2 & _ & C2); [lia |].
    rewrite C1 in E2, C2.
    rewrite firstn_len_app in E2. rewrite skipn_len_app in C2.
    fields. rewrite E2. fields. cbn [fst snd].
    rewrite N. cbn [length]. rewrite Nat2Z.inj_succ. fields.
    replace (Z.succ (Z.of_nat (length q)) - 1) with (Z.of_nat (length q))
      by lia.
    rewrite wrap_small by lia.
    pose proof (contents_length _ W2) as L2. rewrite C2 in L2.
    pose proof (wf_used _ W2) as U2.
    destruct q as [| d1 q].
    + cbn [length Z.of_nat]. cbn [Z.ltb Z.compare orb Z.eqb].
      assert (Hemp : free_space s2 = allocated_size s2).
      { unfold rest in L2. cbn [map concat] in L2. rewrite len_nil in L2.
        lia. }
      unfold empty. rewrite Hemp, Z.eqb_refl.
      unfold clear. run_monad.
      destruct (wf_clear s2 W2 Hemp) as [Wc Cc].
      eexists. split; [reflexivity |].
      constructor; fields; auto.
    + assert (Hpos : 0 < Z.of_nat (length (d1 :: q))) by (cbn [length]; lia).
      destruct (Z.ltb_spec 0 (Z.of_nat (length (d1 :: q)))); [| lia].
      cbn [orb].
      destruct (Z.eqb_spec (Z.of_nat (length (d1 :: q))) 0); [lia |].
      eexists. split; [reflexivity |].
      constructor; fields; auto.
Qed.

(** ** Framed round trip *)

Lemma createMsgs_framed (t : msg_separatr_size_t) (new_size : Z)
  (junk : list byte) (s : CircularBufferMsgsT) :
  is_size_t new_size ->
  createMsgs new_size junk CircularBufferMsgsT_init = Some (tt, s) ->
  framed t s [] /\ free_space (base s) = new_size.
Proof.
  intros Hn. unfold createMsgs, inherited, CircularBufferMsgsT_init. fields.
  destruct (create new_size junk CircularBuffer_init) as [[[] b] |] eqn:E;
    [| discriminate].
  intros E'. injection E' as <-.
  destruct (create_spec new_size junk b Hn E) as (W & A & F & _ & _).
  split; [| exact F].
  constructor; fields; auto.
  pose proof (contents_length b W) as L. rewrite (wf_used b W) in L.
  apply len_zero_nil. lia.
Qed.

Lemma pushMsg_framed (t : msg_separatr_size_t) (s : CircularBufferMsgsT)
  (q : list (list byte)) (d : list byte) :
  framed t s q ->
  1 <= len d < marker_range t ->
  len d + sizeof t <= bytesFree (base s) ->
  exists s',
    pushMsg t (Some d) (len d) s = Some (true, s') /\
    framed t s' (q ++ [d]).
Proof.
  intros [W C N F] Hd Hfree. unfold bytesFree in Hfree.
  destruct (pushMsg_spec t d s W) as (s' & E & W' & C' & N' & A' & F');
    [lia | lia |].
  exists s'. split; [exact E |].
  pose proof (sizeof_range t) as Hs.
  pose proof (records_count t q) as Hq. rewrite <- C in Hq.
  rewrite (contents_length _ W), (wf_used _ W) in Hq.
  pose proof W as [_ Hsz _ _ Hfr _].
  constructor.
  - exact W'.
  - rewrite C', C, narrow_small by lia.
    rewrite map_app, concat_app. cbn [map concat].
    now rewrite app_nil_r.
  - rewrite N', N, length_app. cbn [length].
    rewrite wrap_small by lia. lia.
  - apply Forall_app. split; [exact F |]. constructor; [lia | constructor].
Qed.

Lemma popMsgs_framed (t : msg_separatr_size_t) (max_data_size : Z)
  (q1 q2 : list (list byte)) (s : CircularBufferMsgsT) :
  framed t s (q1 ++ q2) ->
  Forall (fun e => len e <= max_data_size) q1 ->
  exists s',
    popMsgs t (length q1) max_data_size s
    = Some (map (fun e => (len e, e)) q1, s') /\
    framed t s' q2.
Proof.
  revert s. induction q1 as [| e q1 IH]; intros s Fr Hmax.
  - exists s. split; [reflexivity | exact Fr].
  - inversion Hmax as [| e0 q0 He Hq]; subst e0 q0.
    destruct (popMsg_framed t s e (q1 ++ q2) max_data_size Fr)
      as [_ Hpop].
    destruct (Hpop He) as (s1 & E1 & Fr1).
    destruct (IH s1 Fr1 Hq) as (s2 & E2 & Fr2).
    exists s2. split; [| exact Fr2].
    cbn [length popMsgs map]. rewrite E1, E2. reflexivity.
Qed.

Lemma popMsgs_each_framed (t : msg_separatr_size_t) (sizes : list Z)
  (q1 q2 : list (list byte)) (s : CircularBufferMsgsT) :
  framed t s (q1 ++ q2) ->
  Forall2 (fun e max_data_size => len e <= max_data_size) q1 sizes ->
  exists s',
    popMsgs_each t sizes s = Some (map (fun e => (len e, e)) q1, s') /\
    framed t s' q2.
Proof.
  intros Fr H. revert s Fr.
  induction H as [| e m q1 sizes He _ IH]; intros s Fr.
  - exists s. split; [reflexivity | exact Fr].
  - destruct (popMsg_framed t s e (q1 ++ q2) m Fr) as [_ Hpop].
    destruct (Hpop He) as (s1 & E1 & Fr1).
    destruct (IH s1 Fr1) as (s2 & E2 & Fr2).
    exists s2. split; [| exact Fr2].
    cbn [popMsgs_each map]. rewrite E1, E2. reflexivity.
Qed.

(** C1, as the code has it. On a ring whose records are well framed, for
    every payload of length [L] with [1 <= L < 2^W] and [L + sizeof(marker)]
    bytes free, [pushMsg] returns true; once the records queued before it
    have been dequeued, each with a receive size that has room for it,
    [popMsg] with [max_data_size >= L] returns [L] and copies out exactly the
    payload. *)
Theorem framed_roundtrip (t : msg_separatr_size_t) (s : CircularBufferMsgsT)
  (q : list (list byte)) (d : list byte) (sizes : list Z)
  (max_data_size : Z) :
  framed t s q ->
  1 <= len d < marker_range t ->
  len d + sizeof t <= bytesFree (base s) ->
  Forall2 (fun e size => len e <= size) q sizes ->
  len d <= max_data_size ->
  exists s1 s2 s3,
    pushMsg t (Some d) (len d) s = Some (true, s1) /\
    popMsgs_each t sizes s1 = Some (map (fun e => (len e, e)) q, s2) /\
    popMsg t max_data_size s2 = Some ((len d, d), s3) /\
    numMsgs s3 = 0.
Proof.
  intros Fr Hd Hfree Hq Hmax.
  destruct (pushMsg_framed t s q d Fr Hd Hfree) as (s1 & E1 & Fr1).
  destruct (popMsgs_each_framed t sizes q [d] s1 Fr1 Hq)
    as (s2 & E2 & Fr2).
  destruct (popMsg_framed t s2 d [] max_data_size Fr2) as [_ Hpop].
  destruct (Hpop Hmax) as (s3 & E3 & Fr3).
  exists s1, s2, s3. repeat split; try assumption.
  destruct Fr3 as [_ _ N _]. exact N.
Qed.

(** The empty payload has a length below [2^16] and fits a fresh 16-byte
    ring with the 16-bit marker, and [pushMsg] does not return. *)
Lemma framed_roundtrip_counterexample :
  framed uint16_t msgs16 [] /\
  len [] < marker_range uint16_t /\
  len [] + sizeof uint16_t <= bytesFree (base msgs16) /\
  pushMsg uint16_t (Some []) (len []) msgs16 = None.
Proof.
  split.
  - apply (createMsgs_framed uint16_t 16 [] msgs16);
      [unfold is_size_t, SIZE_MAX1; lia | reflexivity].
  - split; [reflexivity |]. split; [vm_compute; discriminate | reflexivity].
Qed.

(** ** Receive buffer too small *)

Lemma popMsg_refuses (t : msg_separatr_size_t) (s : CircularBufferMsgsT)
  (max_data_size : Z) (m : list byte) (s1 : CircularBuffer) :
  pop (sizeof t) (base s) = Some ((true, m), s1) ->
  max_data_size < of_bytes m ->
  popMsg t max_data_size s = Some ((0, []), s).
Proof.
  intros E Hmax. pose proof (pop_true_pre _ _ _ _ E) as Hu.
  destruct (pop_keeps (sizeof t) (base s)) as (r0 & s0 & E0 & B & A & _).
  rewrite E in E0. injection E0 as <- <-.
  unfold popMsg. run_monad.
  destruct (Z.ltb_spec (bytesUsed (base s)) (sizeof t)); [lia |].
  rewrite E. fields. cbn [fst snd].
  destruct (Z.ltb_spec max_data_size (of_bytes m)); [| lia].
  unfold loadCheckPoint, saveCheckPoint. run_monad.
  cbn [cp_head cp_tail cp_free_space]. rewrite B, A.
  destruct s as [[b a h tl f] n]. reflexivity.
Qed.

(** C4, as the code has it. In every state, when the marker at the front of
    the buffered bytes declares a length above [max_data_size], [popMsg]
    returns false (0) and the object is exactly as before: [bytesUsed],
    [numMsgs] and both cursors are unchanged. When the ring is well framed,
    a later [popMsg] with room for the record returns it whole. *)
Theorem oversized_receive_guard (t : msg_separatr_size_t)
  (s : CircularBufferMsgsT) (max_data_size : Z) :
  (forall m s1,
     pop (sizeof t) (base s) = Some ((true, m), s1) ->
     max_data_size < of_bytes m ->
     popMsg t max_data_size s = Some ((0, []), s)) /\
  (forall d q larger,
     framed t s (d :: q) ->
     max_data_size < len d ->
     len d <= larger ->
     popMsg t max_data_size s = Some ((0, []), s) /\
     exists s',
       (popMsg t max_data_size ;;; popMsg t larger) s
       = Some ((len d, d), s') /\
       numMsgs s' = numMsgs s - 1).
Proof.
  split.
  - intros m s1. apply popMsg_refuses.
  - intros d q larger Fr Hsmall Hlarge.
    destruct (popMsg_framed t s d q max_data_size Fr) as [Hfail _].
    destruct (popMsg_framed t s d q larger Fr) as [_ Hok].
    specialize (Hfail Hsmall). destruct (Hok Hlarge) as (s' & E & Fr').
    split; [exact Hfail |].
    exists s'. unfold bind. rewrite Hfail. split; [exact E |].
    destruct Fr as [_ _ N _]. destruct Fr' as [_ _ N' _].
    unfold numMsgs. rewrite N, N'. cbn [length]. lia.
Qed.

(** ** Every reachable message ring *)

Lemma pop_result (n : Z) (r : bool * list byte) (s s' : CircularBuffer) :
  pop n s = Some (r, s') ->
  buffer s' = buffer s /\ allocated_size s' = allocated_size s /\
  head s' = head s.
Proof.
  intros E. destruct (pop_keeps n s) as (r0 & s0 & E0 & H).
  rewrite E in E0. injection E0 as _ <-. exact H.
Qed.

Lemma push_true_wf (data : option (list byte)) (n : Z)
  (s s' : CircularBuffer) :
  wf s -> push data n s = Some (true, s') -> wf s'.
Proof.
  intros W E.
  destruct (push_true_pre _ _ _ _ E) as (d & -> & Hf & Hr).
  destruct (push_spec d n s W Hr Hf) as (s'' & E' & W' & _).
  rewrite E in E'. injection E' as ->. exact W'.
Qed.

Lemma pop_true_wf (n : Z) (out : list byte) (s s' : CircularBuffer) :
  wf s -> 0 <= n -> pop n s = Some ((true, out), s') -> wf s'.
Proof.
  intros W Hn E. pose proof (pop_true_pre _ _ _ _ E) as Hu.
  destruct (pop_spec n s W (conj Hn Hu)) as (s'' & E' & W' & _).
  rewrite E in E'. injection E' as _ ->. exact W'.
Qed.

Lemma unallocated_unused (s : CircularBuffer) :
  unallocated s -> bytesUsed s = 0.
Proof.
  intros (A & F & _). unfold bytesUsed. rewrite A, F. reflexivity.
Qed.

Lemma create_any (new_size : Z) (junk : list byte) (s s' : CircularBuffer) :
  is_size_t new_size ->
  create new_size junk s = Some (tt, s') ->
  wf s' /\ head s' = 0 /\ tail s' = 0 /\ free_space s' = allocated_size s'.
Proof.
  intros [H0 H1]. unfold create. run_monad.
  destruct (allocated_size s =? 0); [| discriminate].
  destruct (negb (nonnull (buffer s))); [| discriminate].
  intros E. injection E as <-. split; [| fields; auto].
  constructor; fields; try lia.
  eexists. split; [reflexivity |]. now apply new_array_length.
Qed.

Lemma destroy_any (s s' : CircularBuffer) :
  destroy s = Some (tt, s') -> unallocated s'.
Proof.
  unfold destroy, clear. cbv [bind get].
  destruct (buffer s); cbn [release]; run_monad; intros E;
    try discriminate; injection E as <-;
    unfold unallocated; fields; repeat split; auto.
Qed.

Lemma pushMsg_step (t : msg_separatr_size_t) (data : option (list byte))
  (data_size : Z) (r : bool) (s s' : CircularBufferMsgsT) :
  wf (base s) \/ unallocated (base s) ->
  pushMsg t data data_size s = Some (r, s') ->
  s' = s \/ (wf (base s') /\ nmsgs s' = wrap (nmsgs s + 1)).
Proof.
  intros Hs. unfold pushMsg. run_monad.
  destruct (free_space (base s) <? wrap (data_size + sizeof t)).
  { intros E. injection E as _ <-. left. reflexivity. }
  destruct (push (Some (marker_bytes t (narrow t data_size))) (sizeof t)
              (base s)) as [[ok1 s1] |] eqn:E1; [| discriminate].
  destruct ok1; [| discriminate]. fields.
  destruct (push data data_size s1) as [[ok2 s2] |] eqn:E2; [| discriminate].
  destruct ok2; cbn [andb]; [| discriminate]. fields.
  intros E. injection E as _ <-. right. fields.
  split; [| reflexivity].
  assert (W : wf (base s)).
  { destruct Hs as [W | (A & _)]; [exact W |].
    destruct (push_true_pre _ _ _ _ E1) as (_ & _ & _ & Hr). lia. }
  apply (push_true_wf _ _ _ _ (push_true_wf _ _ _ _ W E1) E2).
Qed.

Lemma popMsg_step (t : msg_separatr_size_t) (max_data_size : Z)
  (r : Z * list byte) (s s' : CircularBufferMsgsT) :
  wf (base s) \/ unallocated (base s) ->
  popMsg t max_data_size s = Some (r, s') ->
  s' = s \/
  (wf (base s') /\ nmsgs s' = wrap (nmsgs s - 1) /\
   sizeof t <= bytesUsed (base s) /\
   (nmsgs s' = 0 ->
    head (base s') = 0 /\ tail (base s') = 0 /\
    free_space (base s') = allocated_size (base s'))).
Proof.
  intros Hs. pose proof (sizeof_range t) as Hsz. unfold popMsg. run_monad.
  destruct (Z.ltb_spec (bytesUsed (base s)) (sizeof t)) as [Hu | Hu].
  { intros E. injection E as _ <-. left. reflexivity. }
  assert (W : wf (base s)).
  { destruct Hs as [W | U]; [exact W |].
    apply unallocated_unused in U. lia. }
  destruct (pop_keeps (sizeof t) (base s)) as ([ok1 out1] & s1 & E1 & _).
  rewrite E1. cbn [fst snd]. destruct ok1; [| discriminate]. fields.
  destruct (pop_result _ _ _ _ E1) as (B1 & A1 & _).
  assert (W1 : wf s1)
    by (apply (pop_true_wf (sizeof t) out1 (base s) s1 W); [lia | exact E1]).
  destruct (max_data_size <? of_bytes out1).
  { unfold loadCheckPoint, saveCheckPoint. run_monad.
    cbn [cp_head cp_tail cp_free_space]. rewrite B1, A1.
    intros E. injection E as _ <-. left.
    destruct s as [[b a h tl f] n]. reflexivity. }
  destruct (pop_keeps (of_bytes out1) s1) as ([ok2 out2] & s2 & E2 & _).
  fields. rewrite E2. cbn [fst snd]. destruct ok2; [| discriminate]. fields.
  pose proof (pop_true_wf _ _ _ _ W1 (of_bytes_nonneg out1) E2) as W2.
  destruct (Z.ltb_spec 0 (wrap (nmsgs s - 1))) as [Hpos | Hzero];
    cbn [orb].
  - destruct (Z.eqb_spec (wrap (nmsgs s - 1)) 0); [lia |].
    intros E. injection E as _ <-. right. fields.
    split; [exact W2 |]. split; [reflexivity |]. split; [exact Hu |].
    intros Z0. lia.
  - destruct (empty s2) eqn:Hemp; [| discriminate].
    pose proof (wrap_range (nmsgs s - 1)) as Hw.
    destruct (Z.eqb_spec (wrap (nmsgs s - 1)) 0); [| lia].
    unfold clear. run_monad.
    intros E. injection E as _ <-. right. fields.
    unfold empty in Hemp. apply Z.eqb_eq in Hemp.
    destruct (wf_clear s2 W2 Hemp) as [Wc _].
    split; [exact Wc |]. split; [reflexivity |]. split; [exact Hu |].
    intros _. auto.
Qed.

Lemma reachableMsgs_storage (t : msg_separatr_size_t) (n : nat)
  (s : CircularBufferMsgsT) :
  reachableMsgs t n s -> wf (base s) \/ unallocated (base s).
Proof.
  induction 1 as [| n s new_size junk s' _ IH Hn E | n s s' _ IH E
                  | n s data data_size r s' _ IH Hn E
                  | n s max_data_size r s' _ IH Hn E].
  - right. unfold unallocated. simpl. repeat split; auto.
  - left. unfold createMsgs, inherited in E.
    destruct (create new_size junk (base s)) as [[[] b] |] eqn:E0;
      [| discriminate].
    injection E as <-. fields. now apply (create_any new_size junk (base s) b).
  - right. unfold destroyMsgs, inherited in E.
    destruct (destroy (base s)) as [[[] b] |] eqn:E0; [| discriminate].
    injection E as <-. fields. now apply (destroy_any (base s) b).
  - destruct (pushMsg_step _ _ _ _ _ _ IH E) as [-> | [W _]]; auto.
  - destruct (popMsg_step _ _ _ _ _ IH E) as [-> | [W _]]; auto.
Qed.

Lemma reachableMsgs_count (t : msg_separatr_size_t) (n : nat)
  (s : CircularBufferMsgsT) :
  reachableMsgs t n s -> Z.of_nat n < SIZE_MAX1 ->
  0 <= nmsgs s <= Z.of_nat n /\
  (nmsgs s = 0 ->
   head (base s) = 0 /\ tail (base s) = 0 /\
   free_space (base s) = allocated_size (base s)).
Proof.
  induction 1 as [| n s new_size junk s' R IH Hn E | n s s' R IH E
                  | n s data data_size r s' R IH Hn E
                  | n s max_data_size r s' R IH Hn E]; intros Hb.
  - simpl. split; [lia | auto].
  - destruct IH as [IH1 IH2]; [lia |].
    unfold createMsgs, inherited in E.
    destruct (create new_size junk (base s)) as [[[] b] |] eqn:E0;
      [| discriminate].
    injection E as <-. fields.
    destruct (create_any new_size junk (base s) b Hn E0) as (_ & H1 & H2 & H3).
    split; [lia | auto].
  - destruct IH as [IH1 IH2]; [lia |].
    unfold destroyMsgs, inherited in E.
    destruct (destroy (base s)) as [[[] b] |] eqn:E0; [| discriminate].
    injection E as <-. fields.
    destruct (destroy_any (base s) b E0) as (A & F & H1 & H2 & _).
    split; [lia |]. intros _. repeat split; try assumption. lia.
  - destruct IH as [IH1 IH2]; [lia |].
    destruct (pushMsg_step _ _ _ _ _ _ (reachableMsgs_storage _ _ _ R) E)
      as [-> | [_ N]].
    + split; [lia | exact IH2].
    + rewrite wrap_small in N by lia. split; [lia |]. intros Z0. lia.
  - destruct IH as [IH1 IH2]; [lia |].
    destruct (popMsg_step _ _ _ _ _ (reachableMsgs_storage _ _ _ R) E)
      as [-> | (_ & N & Hu & Hz)].
    + split; [lia | exact IH2].
    + assert (Hpos : nmsgs s <> 0).
      { intros Z0. destruct (IH2 Z0) as (_ & _ & Hf).
        unfold bytesUsed in Hu. rewrite Hf, Z.sub_diag in Hu.
        pose proof (sizeof_range t). change (wrap 0) with 0 in Hu. lia. }
      rewrite wrap_small in N by lia. split; [lia | exact Hz].
Qed.

(** ** Count-to-empty normalisation *)

(** C8. In every state of the message ring reached by calls of its public
    member functions ([create], [destroy], [pushMsg], [popMsg]; fewer than
    [2^64] of them, the range of the counter), [numMsgs() == 0] implies that
    the read cursor and the write cursor are both 0. *)
Theorem count_zero_cursors_zero (t : msg_separatr_size_t) (n : nat)
  (s : CircularBufferMsgsT) :
  reachableMsgs t n s -> Z.of_nat n < SIZE_MAX1 ->
  numMsgs s = 0 -> tail (base s) = 0 /\ head (base s) = 0.
Proof.
  intros R Hb Z0.
  destruct (reachableMsgs_count t n s R Hb) as [_ H].
  destruct (H Z0) as (Hh & Ht & _). split; assumption.
Qed.

Lemma count_zero_cursors_zero_witness :
  tail (base msgs16_drained) = 0 /\ head (base msgs16_drained) = 0.
Proof.
  apply (count_zero_cursors_zero uint16_t 3 msgs16_drained).
  - apply (reachm_popMsg uint16_t 2 msgs16_abc 10
             (3, bytes_of [65; 66; 67]) msgs16_drained).
    + apply (reachm_pushMsg uint16_t 1 msgs16
               (Some (bytes_of [65; 66; 67])) 3 true msgs16_abc).
      * apply (reachm_create uint16_t 0 CircularBufferMsgsT_init 16 []
                 msgs16).
        -- apply reachm_init.
        -- unfold is_size_t, SIZE_MAX1. lia.
        -- reflexivity.
      * unfold is_size_t, SIZE_MAX1. lia.
      * reflexivity.
    + unfold is_size_t, SIZE_MAX1. lia.
    + reflexivity.
  - reflexivity.
  - reflexivity.
Defined.

(** ** Marker narrowing *)

(** C7. In a reachable message ring, for a payload of [data_size >= 2^W]
    bytes with [data_size + sizeof(marker)] bytes free, [pushMsg] checks
    nothing about the range and returns true. The record it appends carries
    the marker [data_size mod 2^W]: when the bytes queued before have been
    read, the next [sizeof(marker)] bytes decode to that value, which is
    below the true payload length. *)
Theorem marker_narrowing_wrap (t : msg_separatr_size_t) (n : nat)
  (s : CircularBufferMsgsT) (d : list byte) :
  reachableMsgs t n s ->
  marker_range t <= len d ->
  len d + sizeof t <= bytesFree (base s) ->
  exists s',
    pushMsg t (Some d) (len d) s = Some (true, s') /\
    contents (base s')
    = contents (base s) ++ marker_bytes t (len d mod marker_range t) ++ d /\
    (exists b1 m b2,
       pop (bytesUsed (base s)) (base s')
       = Some ((true, contents (base s)), b1) /\
       pop (sizeof t) b1 = Some ((true, m), b2) /\
       of_bytes m = len d mod marker_range t) /\
    len d mod marker_range t < len d.
Proof.
  intros R Hbig Hfree. unfold bytesFree in Hfree.
  pose proof (sizeof_range t) as Hs.
  pose proof (marker_range_pos t) as Hm.
  assert (W : wf (base s)).
  { destruct (reachableMsgs_storage t n s R) as [W | (_ & F & _)];
      [exact W | lia]. }
  destruct (pushMsg_spec t d s W) as (s' & E & W' & C' & _ & A' & F');
    [lia | lia |].
  unfold narrow in C'.
  exists s'. split; [exact E |]. split; [exact C' |]. split.
  - pose proof (contents_length _ W) as L.
    pose proof (wf_used _ W) as U. pose proof (wf_used _ W') as U'.
    pose proof (len_nonneg (contents (base s))) as Lc.
    destruct (pop_spec (bytesUsed (base s)) (base s') W')
      as (b1 & E1 & W1 & _ & A1 & _ & F1 & _ & C1); [lia |].
    rewrite C' in E1, C1. rewrite <- L in E1, C1.
    rewrite firstn_len_app in E1. rewrite skipn_len_app in C1.
    rewrite L in E1.
    pose proof (wf_used _ W1) as U1.
    destruct (pop_spec (sizeof t) b1 W1)
      as (b2 & E2 & _); [lia |].
    rewrite C1 in E2.
    rewrite <- (marker_bytes_len t (len d mod marker_range t)) in E2 at 2.
    rewrite firstn_len_app in E2.
    exists b1, (marker_bytes t (len d mod marker_range t)), b2.
    split; [exact E1 |]. split; [exact E2 |].
    rewrite marker_decode. unfold narrow.
    apply Z.mod_mod. lia.
  - pose proof (Z.mod_pos_bound (len d) (marker_range t) Hm). lia.
Qed.

Lemma marker_narrowing_wrap_witness :
  exists s',
    pushMsg uint8_t (Some payload300) (len payload300) msgs400
    = Some (true, s') /\
    contents (base s')
    = contents (base msgs400)
      ++ marker_bytes uint8_t (len payload300 mod marker_range uint8_t)
      ++ payload300 /\
    (exists b1 m b2,
       pop (bytesUsed (base msgs400)) (base s')
       = Some ((true, contents (base msgs400)), b1) /\
       pop (sizeof uint8_t) b1 = Some ((true, m), b2) /\
       of_bytes m = len payload300 mod marker_range uint8_t) /\
    len payload300 mod marker_range uint8_t < len payload300.
Proof.
  apply (marker_narrowing_wrap uint8_t 1 msgs400 payload300).
  - apply (reachm_create uint8_t 0 CircularBufferMsgsT_init 400 [] msgs400).
    + apply reachm_init.
    + unfold is_size_t, SIZE_MAX1. lia.
    + reflexivity.
  - vm_compute. discriminate.
  - vm_compute. discriminate.
Defined.

(** ** The theorems at concrete objects *)

Lemma failure_without_mutation_witness :
  push (Some (bytes_of [1; 2; 3])) 15 ring10 = Some (false, ring10) /\
  pop 15 ring10 = Some ((false, []), ring10) /\
  pushMsg uint16_t (Some (bytes_of [1; 2; 3])) 15 msgs16
  = Some (false, msgs16).
Proof.
  destruct (failure_without_mutation uint16_t (Some (bytes_of [1; 2; 3])) 15
              ring10 msgs16) as (H1 & H2 & H3 & H4).
  split; [apply H1; reflexivity |].
  split; [apply H2; reflexivity |].
  apply H4; [discriminate | reflexivity | reflexivity].
Defined.

Lemma create_after_destroy_asserts_witness :
  allocated_size (after destroy ring10_half) = 0 /\
  free_space (after destroy ring10_half) = 0 /\
  head (after destroy ring10_half) = 0 /\
  tail (after destroy ring10_half) = 0 /\
  buffer (after destroy ring10_half) = dangling /\
  create 5 [] (after destroy ring10_half) = None.
Proof.
  apply (create_after_destroy_asserts ring10_half
           (after destroy ring10_half) 5 []).
  - apply (reach_push ring10 (Some (bytes_of [1; 2; 3; 4; 5])) 5).
    + apply (reach_create 10 []).
      * unfold is_size_t, SIZE_MAX1. lia.
      * reflexivity.
    + unfold is_size_t, SIZE_MAX1. lia.
    + reflexivity.
  - reflexivity.
Defined.

Lemma pushMsg_empty_payload_asserts_witness :
  pushMsg uint16_t (Some []) 0 msgs16 = None.
Proof.
  apply (pushMsg_empty_payload_asserts (Some []) msgs16).
  vm_compute. discriminate.
Defined.

Lemma framed_roundtrip_witness :
  exists s1 s2 s3,
    pushMsg uint16_t (Some (bytes_of [68])) (len (bytes_of [68])) msgs16_abc
    = Some (true, s1) /\
    popMsgs_each uint16_t [3] s1
    = Some (map (fun e => (len e, e)) [bytes_of [65; 66; 67]], s2) /\
    popMsg uint16_t 1 s2 = Some ((len (bytes_of [68]), bytes_of [68]), s3) /\
    numMsgs s3 = 0.
Proof.
  apply (framed_roundtrip uint16_t msgs16_abc [bytes_of [65; 66; 67]]
           (bytes_of [68]) [3] 1).
  - constructor.
    + constructor.
      * eexists. split; reflexivity.
      * reflexivity.
      * vm_compute. split; discriminate.
      * vm_compute. split; discriminate.
      * vm_compute. split; discriminate.
      * left. reflexivity.
    + reflexivity.
    + reflexivity.
    + constructor; [reflexivity | constructor].
  - vm_compute. split; [discriminate | reflexivity].
  - vm_compute. discriminate.
  - constructor; [vm_compute; discriminate | constructor].
  - vm_compute. discriminate.
Defined.

Lemma oversized_receive_guard_witness :
  popMsg uint16_t 2 msgs16_abc = Some ((0, []), msgs16_abc) /\
  (popMsg uint16_t 2 msgs16_abc = Some ((0, []), msgs16_abc) /\
   exists s',
     (popMsg uint16_t 2 ;;; popMsg uint16_t 3) msgs16_abc
     = Some ((len (bytes_of [65; 66; 67]), bytes_of [65; 66; 67]), s') /\
     numMsgs s' = numMsgs msgs16_abc - 1).
Proof.
  destruct (oversized_receive_guard uint16_t msgs16_abc 2) as [Hany Hframed].
  split.
  - apply (Hany (bytes_of [3; 0]) (after (pop 2) (base msgs16_abc))).
    + reflexivity.
    + reflexivity.
  - apply (Hframed (bytes_of [65; 66; 67]) [] 3).
    + constructor.
      * constructor.
        -- eexists. split; reflexivity.
        -- reflexivity.
        -- vm_compute. split; discriminate.
        -- vm_compute. split; discriminate.
        -- vm_compute. split; discriminate.
        -- left. reflexivity.
      * reflexivity.
      * reflexivity.
      * constructor; [reflexivity | constructor].
    + reflexivity.
    + vm_compute. discriminate.
Defined.

(** A ring with the 8-bit marker that holds one record of 300 bytes is
    reachable. Its marker declares 44 bytes; [popMsg] with room for 43
    refuses and changes nothing, and no later [popMsg] with more room
    returns the record: each one stops at an assertion. *)
Lemma oversized_receive_guard_counterexample :
  reachableMsgs uint8_t 2 msgs400_300 /\
  (exists m s1,
     pop (sizeof uint8_t) (base msgs400_300) = Some ((true, m), s1) /\
     of_bytes m = 44) /\
  popMsg uint8_t 43 msgs400_300 = Some ((0, []), msgs400_300) /\
  popMsg uint8_t 44 msgs400_300 = None /\
  popMsg uint8_t 300 msgs400_300 = None /\
  popMsg uint8_t (SIZE_MAX1 - 1) msgs400_300 = None.
Proof.
  split.
  - apply (reachm_pushMsg uint8_t 1 msgs400 (Some payload300) 300 true
             msgs400_300).
    + apply (reachm_create uint8_t 0 CircularBufferMsgsT_init 400 [] msgs400).
      * apply reachm_init.
      * unfold is_size_t, SIZE_MAX1. lia.
      * reflexivity.
    + unfold is_size_t, SIZE_MAX1. lia.
    + reflexivity.
  - split.
    + exists (bytes_of [44]), (after (pop 1) (base msgs400_300)).
      split; reflexivity.
    + repeat split; reflexivity.
Qed.

(** With two bytes queued behind a record, and 11 bytes free, the 16-bit
    marker ring still refuses the empty payload: [pushMsg] does not return
    true, it stops at the assertion. *)
Lemma pushMsg_empty_payload_counterexample :
  sizeof uint16_t <= bytesFree (base msgs16_abc) /\
  pushMsg uint16_t (Some []) 0 msgs16_abc = None /\
  forall s', pushMsg uint16_t (Some []) 0 msgs16_abc <> Some (true, s').
Proof.
  split; [vm_compute; discriminate |].
  split; [reflexivity |].
  intros s' E. vm_compute in E. discriminate E.
Qed.

(** * Further properties of the ring *)

Ltac size_ok := unfold is_size_t, SIZE_MAX1; lia.

(** ** Space accounting *)

(** X1. In every state reached by [create] and successful pushes and pops,
    the used and the free bytes add up to the capacity, the free bytes lie
    between 0 and the capacity, [empty] holds exactly when no byte is used,
    and the ring holds [bytesUsed] bytes. *)
Theorem used_plus_free_is_capacity (s : CircularBuffer) :
  reachable s ->
  bytesUsed s + bytesFree s = capacity s /\
  0 <= bytesFree s <= capacity s /\
  (empty s = true <-> bytesUsed s = 0) /\
  len (contents s) = bytesUsed s.
Proof.
  intros R. pose proof (reachable_wf s R) as W.
  pose proof (wf_used s W) as U. pose proof (contents_length s W) as L.
  destruct W as [_ _ _ _ Hf _]. unfold bytesFree, capacity, empty.
  split; [lia |]. split; [exact Hf |]. split; [| exact L].
  rewrite Z.eqb_eq. lia.
Qed.

Lemma used_plus_free_is_capacity_witness :
  bytesUsed ring10_abc + bytesFree ring10_abc = capacity ring10_abc /\
  0 <= bytesFree ring10_abc <= capacity ring10_abc /\
  (empty ring10_abc = true <-> bytesUsed ring10_abc = 0) /\
  len (contents ring10_abc) = bytesUsed ring10_abc.
Proof.
  apply (used_plus_free_is_capacity ring10_abc).
  apply (reach_push ring10 (Some (bytes_of [65; 66; 67])) 3).
  - apply (reach_create 10 []); [size_ok | reflexivity].
  - size_ok.
  - reflexivity.
Defined.

(** X2. On a reachable ring of positive capacity the two cursors coincide
    modulo the capacity exactly when the ring is empty or full: the cursors
    alone cannot tell the two apart, [free_space] does. *)
Theorem cursors_meet_iff_empty_or_full (s : CircularBuffer) :
  reachable s -> 0 < capacity s ->
  ((head s - tail s) mod capacity s = 0 <->
   bytesUsed s = 0 \/ bytesFree s = 0).
Proof.
  intros R Hc. pose proof (reachable_wf s R) as W.
  pose proof (wf_used s W) as U.
  destruct W as [_ _ Hh Ht Hf Hk]. unfold capacity, bytesFree in *.
  rewrite U.
  set (c := allocated_size s) in *. set (u := c - free_space s) in *.
  assert (E : (head s - tail s) mod c = u mod c).
  { destruct Hk as [Hk | Hk].
    - f_equal. lia.
    - replace (head s - tail s) with (u + (-1) * c) by lia.
      apply Z.mod_add. lia. }
  rewrite E.
  destruct (Z.eq_dec u c) as [Huc | Huc].
  - rewrite Huc, Z.mod_same by lia. split; [intros _; right; lia | reflexivity].
  - rewrite Z.mod_small by lia. split; [intros ->; left; reflexivity |].
    intros [H | H]; lia.
Qed.

Lemma cursors_meet_iff_empty_or_full_witness :
  (head ring10_end - tail ring10_end) mod capacity ring10_end = 0 <->
  bytesUsed ring10_end = 0 \/ bytesFree ring10_end = 0.
Proof.
  apply (cursors_meet_iff_empty_or_full ring10_end).
  - apply (reach_push ring10_half (Some (bytes_of [6; 7; 8; 9; 10])) 5).
    + apply (reach_push ring10 (Some (bytes_of [1; 2; 3; 4; 5])) 5).
      * apply (reach_create 10 []); [size_ok | reflexivity].
      * size_ok.
      * reflexivity.
    + size_ok.
    + reflexivity.
  - reflexivity.
Defined.

(** X3. On a reachable ring [isValid] holds exactly when the capacity is
    positive: a ring created with size 0 has storage and is not valid. *)
Theorem isValid_iff_capacity (s : CircularBuffer) :
  reachable s -> isValid s = (0 <? capacity s).
Proof.
  intros R. destruct (reachable_wf s R) as [(b & Hb & _) _ _ _ _ _].
  unfold isValid, capacity. rewrite Hb. reflexivity.
Qed.

Lemma isValid_iff_capacity_witness :
  isValid (after (create 0 []) CircularBuffer_init)
  = (0 <? capacity (after (create 0 []) CircularBuffer_init)).
Proof.
  apply (isValid_iff_capacity (after (create 0 []) CircularBuffer_init)).
  apply (reach_create 0 []); [size_ok | reflexivity].
Defined.

(** ** When [push] and [pop] succeed *)

(** X4. On a reachable ring [push] returns true exactly when the data
    pointer is not null, [0 < data_size < capacity] and [data_size] bytes
    are free; it then takes [data_size] bytes from the free space. With
    enough free bytes and one of the other conditions missing the call fails
    an assertion. *)
Theorem push_succeeds_iff (s : CircularBuffer) (data : option (list byte))
  (n : Z) :
  reachable s ->
  ((exists s', push data n s = Some (true, s')) <->
   data <> None /\ 0 < n < capacity s /\ n <= bytesFree s) /\
  (forall s', push data n s = Some (true, s') ->
     bytesFree s' = bytesFree s - n /\ capacity s' = capacity s) /\
  (n <= bytesFree s -> data = None \/ n <= 0 \/ capacity s <= n ->
   push data n s = None).
Proof.
  intros R. pose proof (reachable_wf s R) as W.
  unfold capacity, bytesFree. split; [split |].
  - intros (s' & E).
    destruct (push_true_pre _ _ _ _ E) as (d & -> & Hf & Hr).
    split; [discriminate | lia].
  - intros (Hd & Hr & Hf). destruct data as [d |]; [| contradiction].
    destruct (push_spec d n s W Hr Hf) as (s' & E & _). exists s'. exact E.
  - split.
    + intros s' E.
      destruct (push_true_pre _ _ _ _ E) as (d & -> & Hf & Hr).
      destruct (push_spec d n s W Hr Hf) as (s'' & E' & _ & A & _ & F & _).
      rewrite E in E'. injection E' as ->. split; assumption.
    + intros Hf Hbad. unfold push. run_monad.
      destruct (Z.ltb_spec (free_space s) n); [lia |].
      destruct data as [d |]; cbn [is_some]; [| reflexivity].
      destruct (Z.ltb_spec 0 n); [| reflexivity].
      destruct (Z.ltb_spec n (allocated_size s)); [| reflexivity].
      destruct Hbad as [Hbad | [Hbad | Hbad]]; [discriminate | lia | lia].
Qed.

Lemma push_succeeds_iff_witness :
  ((exists s', push (Some (bytes_of [1; 2])) 10 ring10 = Some (true, s')) <->
   Some (bytes_of [1; 2]) <> None /\ 0 < 10 < capacity ring10 /\
   10 <= bytesFree ring10) /\
  (forall s', push (Some (bytes_of [1; 2])) 10 ring10 = Some (true, s') ->
     bytesFree s' = bytesFree ring10 - 10 /\ capacity s' = capacity ring10) /\
  (10 <= bytesFree ring10 ->
   Some (bytes_of [1; 2]) = None \/ 10 <= 0 \/ capacity ring10 <= 10 ->
   push (Some (bytes_of [1; 2])) 10 ring10 = None).
Proof.
  apply (push_succeeds_iff ring10 (Some (bytes_of [1; 2])) 10).
  apply (reach_create 10 []); [size_ok | reflexivity].
Defined.

(** X5. On a reachable ring [pop] of a [size_t] count returns true exactly
    when that many bytes are used; it then hands out exactly that many bytes,
    the oldest ones, and returns them to the free space. When it returns
    false it hands out nothing. *)
Theorem pop_succeeds_iff (s : CircularBuffer) (n : Z) :
  reachable s -> is_size_t n ->
  ((exists out s', pop n s = Some ((true, out), s')) <-> n <= bytesUsed s) /\
  (forall out s', pop n s = Some ((true, out), s') ->
     len out = n /\ out = firstn (Z.to_nat n) (contents s) /\
     bytesUsed s' = bytesUsed s - n /\ capacity s' = capacity s) /\
  (forall out s', pop n s = Some ((false, out), s') -> out = [] /\ s' = s).
Proof.
  intros R [Hn _]. pose proof (reachable_wf s R) as W.
  pose proof (contents_length s W) as L.
  split; [split |].
  - intros (out & s' & E). exact (pop_true_pre _ _ _ _ E).
  - intros Hu.
    destruct (pop_spec n s W (conj Hn Hu)) as (s' & E & _).
    eexists. exists s'. exact E.
  - split.
    + intros out s' E. pose proof (pop_true_pre _ _ _ _ E) as Hu.
      destruct (pop_spec n s W (conj Hn Hu))
        as (s'' & E' & W' & _ & A & _ & F & _).
      rewrite E in E'. injection E' as Eo Es. subst out s''.
      rewrite (wf_used s W), (wf_used s' W'). unfold capacity.
      split; [| split; [reflexivity | split; [lia | exact A]]].
      unfold len in *. rewrite length_firstn. lia.
    + intros out s'. unfold pop. run_monad.
      destruct (bytesUsed s <? n).
      * intros E. injection E as <- <-. auto.
      * destruct (n <=? wrap (allocated_size s - tail s)); discriminate.
Qed.

Lemma pop_succeeds_iff_witness :
  ((exists out s', pop 2 ring10_abc = Some ((true, out), s')) <->
   2 <= bytesUsed ring10_abc) /\
  (forall out s', pop 2 ring10_abc = Some ((true, out), s') ->
     len out = 2 /\ out = firstn (Z.to_nat 2) (contents ring10_abc) /\
     bytesUsed s' = bytesUsed ring10_abc - 2 /\
     capacity s' = capacity ring10_abc) /\
  (forall out s', pop 2 ring10_abc = Some ((false, out), s') ->
     out = [] /\ s' = ring10_abc).
Proof.
  apply (pop_succeeds_iff ring10_abc 2).
  - apply (reach_push ring10 (Some (bytes_of [65; 66; 67])) 3).
    + apply (reach_create 10 []); [size_ok | reflexivity].
    + size_ok.
    + reflexivity.
  - size_ok.
Defined.

(** ** Empty requests, full rings *)

(** X6. On a reachable ring a [pop] of 0 bytes returns true, hands out
    nothing and leaves the object exactly as it was, whereas a [push] of 0
    bytes fails an assertion. *)
Theorem pop_zero_is_noop (s : CircularBuffer) :
  reachable s ->
  pop 0 s = Some ((true, []), s) /\
  forall data, push data 0 s = None.
Proof.
  intros R. pose proof (reachable_wf s R) as W.
  pose proof (wf_used s W) as U.
  destruct W as [(b & Hb & Hl) Hs Hh Ht Hf Hc]. split.
  - destruct s as [p c h t f]; simpl in *. subst p.
    unfold pop, bytesUsed. run_monad. cbn [memcpy_out].
    rewrite (wrap_small (c - f)) by lia.
    destruct (Z.ltb_spec (c - f) 0); [lia |].
    rewrite (wrap_small (c - t)) by lia.
    destruct (Z.leb_spec 0 (c - t)); [| lia].
    rewrite Z.add_0_r, Z.add_0_r.
    rewrite (wrap_small t), (wrap_small f) by lia. reflexivity.
  - intros data. destruct (push_zero data s) as [E | E]; [exact E |].
    exfalso. revert E. unfold push. run_monad.
    destruct (Z.ltb_spec (free_space s) 0); [lia |].
    destruct (is_some data); discriminate.
Qed.

Lemma pop_zero_is_noop_witness :
  pop 0 ring10_abc = Some ((true, []), ring10_abc) /\
  forall data, push data 0 ring10_abc = None.
Proof.
  apply (pop_zero_is_noop ring10_abc).
  apply (reach_push ring10 (Some (bytes_of [65; 66; 67])) 3).
  - apply (reach_create 10 []); [size_ok | reflexivity].
  - size_ok.
  - reflexivity.
Defined.

(** X7. One [push] can never take the whole capacity: on an empty reachable
    ring a push of [capacity] bytes fails the assertion
    [data_size < allocated_size]. Two pushes can: after them no byte is free,
    every further push of a positive size returns false, and one [pop] of
    [capacity] bytes returns both arrays in order and empties the ring. *)
Theorem fill_ring_in_two_pushes (s : CircularBuffer) (d1 d2 : list byte) :
  reachable s -> bytesUsed s = 0 ->
  0 < len d1 -> 0 < len d2 -> len d1 + len d2 = capacity s ->
  push (Some (d1 ++ d2)) (capacity s) s = None /\
  exists s1 s2 s3,
    push (Some d1) (len d1) s = Some (true, s1) /\
    push (Some d2) (len d2) s1 = Some (true, s2) /\
    bytesFree s2 = 0 /\
    (forall data n, 0 < n -> push data n s2 = Some (false, s2)) /\
    pop (capacity s) s2 = Some ((true, d1 ++ d2), s3) /\
    bytesUsed s3 = 0.
Proof.
  intros R U0 H1 H2 Hsum. pose proof (reachable_wf s R) as W.
  pose proof (wf_used s W) as U. pose proof (contents_length s W) as L.
  rewrite U0 in L. apply len_zero_nil in L.
  unfold capacity in *. split.
  - unfold push. run_monad.
    destruct (Z.ltb_spec (free_space s) (allocated_size s)); [lia |].
    cbn [is_some].
    destruct (Z.ltb_spec 0 (allocated_size s)); [| reflexivity].
    destruct (Z.ltb_spec (allocated_size s) (allocated_size s));
      [lia | reflexivity].
  - destruct (push_spec d1 (len d1) s W)
      as (s1 & E1 & W1 & A1 & _ & F1 & _ & C1); [lia | lia |].
    specialize (C1 eq_refl). rewrite L in C1. cbn [app] in C1.
    destruct (push_spec d2 (len d2) s1 W1)
      as (s2 & E2 & W2 & A2 & _ & F2 & _ & C2); [lia | lia |].
    specialize (C2 eq_refl). rewrite C1 in C2.
    pose proof (wf_used s2 W2) as U2.
    destruct (pop_spec (allocated_size s) s2 W2)
      as (s3 & E3 & W3 & _ & A3 & _ & F3 & _ & _); [lia |].
    rewrite C2 in E3.
    replace (Z.to_nat (allocated_size s)) with (length (d1 ++ d2)) in E3
      by (rewrite <- Hsum, <- len_app; unfold len; lia).
    rewrite firstn_all in E3.
    exists s1, s2, s3. split; [exact E1 |]. split; [exact E2 |].
    unfold bytesFree. split; [lia |]. split.
    + intros data n Hn. apply push_no_space. unfold bytesFree. lia.
    + split; [exact E3 |]. rewrite (wf_used s3 W3). lia.
Qed.

Lemma fill_ring_in_two_pushes_witness :
  push (Some (bytes_of [1; 2; 3; 4] ++ bytes_of [5; 6; 7; 8; 9; 10]))
    (capacity ring10) ring10 = None /\
  exists s1 s2 s3,
    push (Some (bytes_of [1; 2; 3; 4])) (len (bytes_of [1; 2; 3; 4])) ring10
    = Some (true, s1) /\
    push (Some (bytes_of [5; 6; 7; 8; 9; 10]))
      (len (bytes_of [5; 6; 7; 8; 9; 10])) s1 = Some (true, s2) /\
    bytesFree s2 = 0 /\
    (forall data n, 0 < n -> push data n s2 = Some (false, s2)) /\
    pop (capacity ring10) s2
    = Some ((true, bytes_of [1; 2; 3; 4] ++ bytes_of [5; 6; 7; 8; 9; 10]),
            s3) /\
    bytesUsed s3 = 0.
Proof.
  apply (fill_ring_in_two_pushes ring10 (bytes_of [1; 2; 3; 4])
           (bytes_of [5; 6; 7; 8; 9; 10])).
  - apply (reach_create 10 []); [size_ok | reflexivity].
  - reflexivity.
  - reflexivity.
  - reflexivity.
  - reflexivity.
Defined.

(** ** Checkpoints and pushes *)

Lemma push_seq_spec (ds : list (list byte)) (s s' : CircularBuffer) :
  wf s -> push_seq ds s = Some s' ->
  wf s' /\ contents s' = contents s ++ concat ds /\
  tail s' = tail s /\ allocated_size s' = allocated_size s.
Proof.
  revert s. induction ds as [| d ds IH]; intros s W E; cbn [push_seq] in E.
  - injection E as <-. cbn [concat]. rewrite app_nil_r. auto.
  - destruct (push (Some d) (len d) s) as [[[|] s1] |] eqn:E1;
      try discriminate.
    destruct (push_true_pre _ _ _ _ E1) as (_ & _ & Hf & Hr).
    destruct (push_spec d (len d) s W Hr Hf)
      as (s1' & E1' & W1 & A1 & T1 & _ & _ & C1).
    rewrite E1 in E1'. injection E1' as <-. specialize (C1 eq_refl).
    destruct (IH s1 W1 E) as (W' & C' & T' & A').
    split; [exact W' |]. cbn [concat].
    rewrite C', C1, <- app_assoc, T', A', T1, A1. auto.
Qed.

(** X8. A checkpoint also takes back pushes. After [saveCheckPoint] and any
    successful pushes, [loadCheckPoint] gives a well-formed ring with the
    saved cursors and free space that holds exactly the bytes it held at the
    save; the pushed bytes are no longer part of it. *)
Theorem checkpoint_undoes_pushes (s s' : CircularBuffer)
  (ds : list (list byte)) :
  reachable s -> push_seq ds s = Some s' ->
  exists r,
    loadCheckPoint (saveCheckPoint s) s' = Some (tt, r) /\
    wf r /\
    contents r = contents s /\
    head r = head s /\ tail r = tail s /\ bytesFree r = bytesFree s /\
    bytesUsed r = bytesUsed s.
Proof.
  intros R E. pose proof (reachable_wf s R) as W.
  destruct (push_seq_spec ds s s' W E) as (W' & C' & T' & A').
  pose proof (contents_length s W) as L.
  pose proof (contents_length s' W') as L'.
  pose proof (wf_used s W) as U. pose proof (wf_used s' W') as U'.
  pose proof (len_nonneg (concat ds)) as Hd.
  rewrite C', len_app in L'.
  destruct W as [_ Hs Hh Ht Hf Hc].
  destruct W' as [(b' & Hb' & Hl') _ _ _ Hf' _].
  set (r := mkCircularBuffer (buffer s') (allocated_size s')
              (head s) (tail s) (free_space s)).
  exists r. split; [reflexivity |].
  assert (Ur : bytesUsed r = bytesUsed s)
    by (unfold bytesUsed, r; fields; now rewrite A').
  split; [| split; [| unfold bytesFree; auto]].
  - constructor; unfold r; fields; rewrite ?A'; try lia.
    exists b'. split; [exact Hb' | lia].
  - assert (F : firstn (Z.to_nat (bytesUsed s)) (contents s') = contents s).
    { rewrite C', <- L. apply firstn_len_app. }
    rewrite <- F. unfold contents.
    replace (buffer r) with (heap b') by (symmetry; exact Hb').
    replace (tail r) with (tail s) by reflexivity.
    rewrite Ur, Hb', T'. rewrite firstn_slice by lia. reflexivity.
Qed.

Lemma checkpoint_undoes_pushes_witness :
  exists r,
    loadCheckPoint (saveCheckPoint ring10_abc)
      (after (push (Some (bytes_of [68; 69])) 2) ring10_abc)
    = Some (tt, r) /\
    wf r /\
    contents r = contents ring10_abc /\
    head r = head ring10_abc /\ tail r = tail ring10_abc /\
    bytesFree r = bytesFree ring10_abc /\
    bytesUsed r = bytesUsed ring10_abc.
Proof.
  apply (checkpoint_undoes_pushes ring10_abc
           (after (push (Some (bytes_of [68; 69])) 2) ring10_abc)
           [bytes_of [68; 69]]).
  - apply (reach_push ring10 (Some (bytes_of [65; 66; 67])) 3).
    + apply (reach_create 10 []); [size_ok | reflexivity].
    + size_ok.
    + reflexivity.
  - reflexivity.
Defined.

(** ** [clear] and [destroy] *)

(** X9. [clear] sets both cursors to 0 and touches neither the free space
    nor the storage. On a reachable ring of positive capacity the result is
    well formed exactly when the ring was empty or full; on an empty ring it
    is again an empty ring. *)
Theorem clear_safe_iff (s : CircularBuffer) :
  reachable s -> 0 < capacity s ->
  exists s',
    clear s = Some (tt, s') /\
    head s' = 0 /\ tail s' = 0 /\
    bytesFree s' = bytesFree s /\ buffer s' = buffer s /\
    capacity s' = capacity s /\
    (wf s' <-> bytesUsed s = 0 \/ bytesFree s = 0) /\
    (bytesUsed s = 0 -> contents s' = []).
Proof.
  intros R Hc. pose proof (reachable_wf s R) as W.
  pose proof (wf_used s W) as U.
  unfold clear, capacity, bytesFree in *. run_monad.
  eexists. split; [reflexivity |]. fields.
  repeat (split; [reflexivity |]). rewrite U. split.
  - split.
    + intros [_ _ _ _ _ Hk].
      cbn [allocated_size head tail free_space] in Hk. lia.
    + intros H. destruct W as [Hb Hs Hh Ht Hf Hk].
      constructor; fields; try lia. exact Hb.
  - intros H0. apply (wf_clear s W). lia.
Qed.

Lemma clear_safe_iff_witness :
  exists s',
    clear ring10_abc = Some (tt, s') /\
    head s' = 0 /\ tail s' = 0 /\
    bytesFree s' = bytesFree ring10_abc /\ buffer s' = buffer ring10_abc /\
    capacity s' = capacity ring10_abc /\
    (wf s' <-> bytesUsed ring10_abc = 0 \/ bytesFree ring10_abc = 0) /\
    (bytesUsed ring10_abc = 0 -> contents s' = []).
Proof.
  apply (clear_safe_iff ring10_abc).
  - apply (reach_push ring10 (Some (bytes_of [65; 66; 67])) 3).
    + apply (reach_create 10 []); [size_ok | reflexivity].
    + size_ok.
    + reflexivity.
  - reflexivity.
Defined.

(** X10. On an object whose storage [destroy] has not released before (a
    created ring, or one never created), [destroy] runs to its end, and the
    object it leaves is inert: it is not valid, has capacity 0, no used and
    no free byte, counts as empty, and every [push] and [pop] of a positive
    size returns false and changes nothing. *)
Theorem destroyed_ring_is_inert (s : CircularBuffer) :
  buffer s <> dangling ->
  exists s',
    destroy s = Some (tt, s') /\
    isValid s' = false /\ capacity s' = 0 /\
    bytesUsed s' = 0 /\ bytesFree s' = 0 /\ empty s' = true /\
    (forall data n, 0 < n -> push data n s' = Some (false, s')) /\
    (forall n, 0 < n -> pop n s' = Some ((false, []), s')).
Proof.
  intros Hb. unfold destroy, clear. cbv [bind get].
  destruct (buffer s) as [| b |]; [| | contradiction];
    cbn [release]; run_monad;
    (eexists; split; [reflexivity |];
     split; [reflexivity |]; split; [reflexivity |];
     split; [reflexivity |]; split; [reflexivity |];
     split; [reflexivity |]; split;
     [intros data n Hn; apply push_no_space; exact Hn
     | intros n Hn; apply pop_no_data; exact Hn]).
Qed.

Lemma destroyed_ring_is_inert_witness :
  exists s',
    destroy ring10_abc = Some (tt, s') /\
    isValid s' = false /\ capacity s' = 0 /\
    bytesUsed s' = 0 /\ bytesFree s' = 0 /\ empty s' = true /\
    (forall data n, 0 < n -> push data n s' = Some (false, s')) /\
    (forall n, 0 < n -> pop n s' = Some ((false, []), s')).
Proof.
  apply (destroyed_ring_is_inert ring10_abc).
  vm_compute. discriminate.
Defined.

(** X11. [create] on a ring that was already created fails an assertion,
    whatever has been pushed and popped since. *)
Theorem create_twice_asserts (s : CircularBuffer) (new_size : Z)
  (junk : list byte) :
  reachable s -> create new_size junk s = None.
Proof.
  intros R. destruct (reachable_wf s R) as [(b & Hb & _) _ _ _ _ _].
  unfold create. run_monad. rewrite Hb. cbn [nonnull negb].
  destruct (allocated_size s =? 0); reflexivity.
Qed.

Lemma create_twice_asserts_witness :
  create 4 [] (after (create 0 []) CircularBuffer_init) = None.
Proof.
  apply (create_twice_asserts (after (create 0 []) CircularBuffer_init) 4 []).
  apply (reach_create 0 []); [size_ok | reflexivity].
Defined.

(** * Further properties of the message ring *)

(** ** Space taken by records *)

Lemma records_size_len (t : msg_separatr_size_t) (q : list (list byte)) :
  len (concat (map (record_bytes t) q)) = records_size t q.
Proof.
  induction q as [| d q IH]; cbn [map concat records_size fold_right].
  - reflexivity.
  - fold (records_size t q). unfold record_bytes at 1.
    rewrite !len_app, marker_bytes_len, IH. lia.
Qed.

Lemma records_size_app (t : msg_separatr_size_t) (q1 q2 : list (list byte)) :
  records_size t (q1 ++ q2) = records_size t q1 + records_size t q2.
Proof.
  rewrite <- !records_size_len, map_app, concat_app. apply len_app.
Qed.

Lemma framed_used (t : msg_separatr_size_t)
  (s : CircularBufferMsgsT) (q : list (list byte)) :
  framed t s q ->
  bytesUsed (base s) = records_size t q /\
  numMsgs s = Z.of_nat (length q) /\
  (empty (base s) = true <-> q = []).
Proof.
  intros [W C N F]. pose proof (contents_length _ W) as L.
  rewrite C, records_size_len in L.
  split; [symmetry; exact L |]. split; [exact N |].
  pose proof (wf_used _ W) as U. unfold empty. rewrite Z.eqb_eq.
  split.
  - intros E. destruct q as [| d q]; [reflexivity | exfalso].
    cbn [records_size fold_right] in L. fold (records_size t q) in L.
    pose proof (records_count t q) as Hq. rewrite records_size_len in Hq.
    pose proof (sizeof_range t). pose proof (len_nonneg d). lia.
  - intros ->. cbn [records_size fold_right] in L. lia.
Qed.

(** ** Nothing to dequeue *)

Lemma popMsg_no_data (t : msg_separatr_size_t) (max_data_size : Z)
  (s : CircularBufferMsgsT) :
  bytesUsed (base s) < sizeof t ->
  popMsg t max_data_size s = Some ((0, []), s).
Proof.
  intros H. unfold popMsg. run_monad.
  destruct (Z.ltb_spec (bytesUsed (base s)) (sizeof t)); [reflexivity | lia].
Qed.

(** X13. Whenever [numMsgs] is 0 in a reachable message ring (fewer than
    [2^64] calls), the ring is empty and [popMsg] returns 0, copies nothing
    and leaves the object as it was. *)
Theorem popMsg_without_messages (t : msg_separatr_size_t) (n : nat)
  (s : CircularBufferMsgsT) (max_data_size : Z) :
  reachableMsgs t n s -> Z.of_nat n < SIZE_MAX1 -> numMsgs s = 0 ->
  empty (base s) = true /\ bytesUsed (base s) = 0 /\
  popMsg t max_data_size s = Some ((0, []), s).
Proof.
  intros R Hb Z0. destruct (reachableMsgs_count t n s R Hb) as [_ H].
  destruct (H Z0) as (_ & _ & Hf).
  assert (U : bytesUsed (base s) = 0)
    by (unfold bytesUsed; rewrite Hf, Z.sub_diag; reflexivity).
  split; [unfold empty; now apply Z.eqb_eq |]. split; [exact U |].
  apply popMsg_no_data. pose proof (sizeof_range t). lia.
Qed.

Lemma popMsg_without_messages_witness :
  empty (base msgs16_drained) = true /\ bytesUsed (base msgs16_drained) = 0 /\
  popMsg uint16_t 100 msgs16_drained = Some ((0, []), msgs16_drained).
Proof.
  apply (popMsg_without_messages uint16_t 3 msgs16_drained 100).
  - apply (reachm_popMsg uint16_t 2 msgs16_abc 10
             (3, bytes_of [65; 66; 67]) msgs16_drained).
    + apply (reachm_pushMsg uint16_t 1 msgs16
               (Some (bytes_of [65; 66; 67])) 3 true msgs16_abc).
      * apply (reachm_create uint16_t 0 CircularBufferMsgsT_init 16 []
                 msgs16); [apply reachm_init | size_ok | reflexivity].
      * size_ok.
      * reflexivity.
    + size_ok.
    + reflexivity.
  - reflexivity.
  - reflexivity.
Defined.

(** ** Queues of several messages *)

Lemma pushMsgs_framed (t : msg_separatr_size_t) (ds q : list (list byte))
  (s : CircularBufferMsgsT) :
  framed t s q ->
  Forall (fun d => 1 <= len d < marker_range t) ds ->
  records_size t ds <= bytesFree (base s) ->
  exists s', pushMsgs t ds s = Some s' /\ framed t s' (q ++ ds).
Proof.
  revert q s. induction ds as [| d ds IH]; intros q s Fr Hd Hfree.
  - exists s. rewrite app_nil_r. split; [reflexivity | exact Fr].
  - inversion Hd as [| d0 ds0 Hd1 Hds]; subst d0 ds0.
    cbn [records_size fold_right] in Hfree. fold (records_size t ds) in Hfree.
    assert (Hrs : 0 <= records_size t ds).
    { rewrite <- records_size_len. apply len_nonneg. }
    unfold bytesFree in *.
    destruct (pushMsg_framed t s q d Fr Hd1) as (s1 & E1 & Fr1);
      [unfold bytesFree; lia |].
    destruct Fr as [W _ _ _].
    destruct (pushMsg_spec t d s W) as (s1' & E1' & _ & _ & _ & _ & F1);
      [lia | lia |].
    rewrite E1 in E1'. injection E1' as <-.
    destruct (IH (q ++ [d]) s1 Fr1 Hds) as (s2 & E2 & Fr2); [lia |].
    exists s2. cbn [pushMsgs]. rewrite E1. split; [exact E2 |].
    now rewrite <- app_assoc in Fr2.
Qed.

(** X14. Messages leave in the order they entered. Pushing payloads, each
    of a length from 1 up to the marker's range, that fit together with
    their markers into an empty well-framed ring succeeds for all of them;
    the same number of [popMsg] calls with a large enough receive size then
    returns every length and payload in push order and leaves no message and
    no used byte. *)
Theorem pushMsgs_popMsgs_fifo (t : msg_separatr_size_t)
  (s : CircularBufferMsgsT) (ds : list (list byte)) (max_data_size : Z) :
  framed t s [] ->
  Forall (fun d => 1 <= len d < marker_range t) ds ->
  records_size t ds <= bytesFree (base s) ->
  Forall (fun d => len d <= max_data_size) ds ->
  exists s1 s2,
    pushMsgs t ds s = Some s1 /\
    numMsgs s1 = Z.of_nat (length ds) /\
    popMsgs t (length ds) max_data_size s1
    = Some (map (fun d => (len d, d)) ds, s2) /\
    numMsgs s2 = 0 /\ bytesUsed (base s2) = 0.
Proof.
  intros Fr Hd Hfree Hmax.
  destruct (pushMsgs_framed t ds [] s Fr Hd Hfree) as (s1 & E1 & Fr1).
  cbn [app] in Fr1.
  assert (Fr1' : framed t s1 (ds ++ [])) by (now rewrite app_nil_r).
  destruct (popMsgs_framed t max_data_size ds [] s1 Fr1' Hmax)
    as (s2 & E2 & Fr2).
  exists s1, s2. split; [exact E1 |].
  destruct (framed_used t s1 ds Fr1) as (_ & N1 & _).
  destruct (framed_used t s2 [] Fr2) as (U2 & N2 & _).
  repeat split; assumption.
Qed.

Lemma pushMsgs_popMsgs_fifo_witness :
  exists s1 s2,
    pushMsgs uint16_t [bytes_of [65; 66; 67]; bytes_of [68]; bytes_of [69; 70]]
      msgs16 = Some s1 /\
    numMsgs s1
    = Z.of_nat
        (length [bytes_of [65; 66; 67]; bytes_of [68]; bytes_of [69; 70]]) /\
    popMsgs uint16_t
      (length [bytes_of [65; 66; 67]; bytes_of [68]; bytes_of [69; 70]])
      8 s1
    = Some (map (fun d => (len d, d))
              [bytes_of [65; 66; 67]; bytes_of [68]; bytes_of [69; 70]],
            s2) /\
    numMsgs s2 = 0 /\ bytesUsed (base s2) = 0.
Proof.
  apply (pushMsgs_popMsgs_fifo uint16_t msgs16
           [bytes_of [65; 66; 67]; bytes_of [68]; bytes_of [69; 70]] 8).
  - constructor.
    + constructor.
      * eexists. split; reflexivity.
      * reflexivity.
      * vm_compute. split; discriminate.
      * vm_compute. split; discriminate.
      * vm_compute. split; discriminate.
      * left. reflexivity.
    + reflexivity.
    + reflexivity.
    + constructor.
  - repeat constructor; vm_compute; discriminate.
  - vm_compute. discriminate.
  - repeat constructor; vm_compute; discriminate.
Defined.

(** ** A narrowed marker is caught by the assertion *)

(** X15. When a payload of [2^W] bytes or more is pushed as the only message
    of a well-framed ring, its record declares the narrowed length. A
    [popMsg] whose receive size is below that length returns 0 and changes
    nothing; any other [popMsg] takes the narrowed number of bytes, finds
    the ring not empty with the count at 0, and fails the assertion
    [nmsgs > 0 || empty()]. *)
Theorem narrowed_record_trips_assert (t : msg_separatr_size_t)
  (s : CircularBufferMsgsT) (d : list byte) :
  framed t s [] ->
  marker_range t <= len d ->
  len d + sizeof t <= bytesFree (base s) ->
  exists s',
    pushMsg t (Some d) (len d) s = Some (true, s') /\
    numMsgs s' = 1 /\
    (forall max_data_size, max_data_size < len d mod marker_range t ->
       popMsg t max_data_size s' = Some ((0, []), s')) /\
    (forall max_data_size, len d mod marker_range t <= max_data_size ->
       popMsg t max_data_size s' = None).
Proof.
  intros [W C N _] Hbig Hfree. unfold bytesFree in Hfree.
  pose proof (sizeof_range t) as Hs. pose proof (marker_range_pos t) as Hm.
  pose proof (Z.mod_pos_bound (len d) (marker_range t) Hm) as Hmod.
  destruct (pushMsg_spec t d s W) as (s' & E & W' & C' & N' & A' & F');
    [lia | lia |].
  cbn [map concat] in C. rewrite C in C'. cbn [app] in C'.
  cbn [length Z.of_nat] in N. rewrite N in N'. change (wrap (0 + 1)) with 1 in N'.
  unfold narrow in C'. set (m := len d mod marker_range t) in *.
  exists s'. split; [exact E |]. split; [exact N' |].
  pose proof (contents_length _ W') as L'. rewrite C' in L'.
  rewrite len_app, marker_bytes_len in L'.
  pose proof (wf_used _ W') as U'.
  destruct (pop_spec (sizeof t) (base s') W')
    as (s1 & E1 & W1 & B1 & A1 & H1 & F1 & _ & C1); [lia |].
  rewrite C' in E1, C1. rewrite <- (marker_bytes_len t m) in E1, C1.
  rewrite firstn_len_app in E1. rewrite skipn_len_app in C1.
  rewrite (marker_bytes_len t m) in E1.
  assert (Hdec : of_bytes (marker_bytes t m) = m).
  { rewrite marker_decode. apply narrow_small. lia. }
  split; intros max_data_size Hmax; unfold popMsg; run_monad;
    (destruct (Z.ltb_spec (bytesUsed (base s')) (sizeof t)); [lia |]);
    rewrite E1; fields; cbn [fst snd]; rewrite Hdec.
  - destruct (Z.ltb_spec max_data_size m); [| lia].
    unfold loadCheckPoint, saveCheckPoint. run_monad.
    cbn [cp_head cp_tail cp_free_space]. rewrite B1, A1.
    destruct s' as [[b a h tl f] k]. reflexivity.
  - destruct (Z.ltb_spec max_data_size m); [lia |]. fields.
    pose proof (wf_used _ W1) as U1.
    destruct (pop_spec m s1 W1)
      as (s2 & E2 & W2 & _ & A2 & _ & F2 & _ & _); [lia |].
    rewrite E2. fields. cbn [fst snd]. rewrite N'. fields.
    change (wrap (1 - 1)) with 0. cbn [Z.ltb Z.compare orb].
    unfold empty.
    destruct (Z.eqb_spec (free_space s2) (allocated_size s2)); [lia |].
    reflexivity.
Qed.

Lemma narrowed_record_trips_assert_witness :
  exists s',
    pushMsg uint8_t (Some payload300) (len payload300) msgs400
    = Some (true, s') /\
    numMsgs s' = 1 /\
    (forall max_data_size,
       max_data_size < len payload300 mod marker_range uint8_t ->
       popMsg uint8_t max_data_size s' = Some ((0, []), s')) /\
    (forall max_data_size,
       len payload300 mod marker_range uint8_t <= max_data_size ->
       popMsg uint8_t max_data_size s' = None).
Proof.
  apply (narrowed_record_trips_assert uint8_t msgs400 payload300).
  - constructor.
    + constructor.
      * eexists. split; reflexivity.
      * reflexivity.
      * vm_compute. split; discriminate.
      * vm_compute. split; discriminate.
      * vm_compute. split; discriminate.
      * left. reflexivity.
    + reflexivity.
    + reflexivity.
    + constructor.
  - vm_compute. discriminate.
  - vm_compute. discriminate.
Defined.

(** ** All or nothing *)

Lemma push_true_free (data : option (list byte)) (n : Z)
  (s s' : CircularBuffer) :
  wf s -> push data n s = Some (true, s') ->
  wf s' /\ free_space s' = free_space s - n /\
  allocated_size s' = allocated_size s.
Proof.
  intros W E.
  destruct (push_true_pre _ _ _ _ E) as (d & -> & Hf & Hr).
  destruct (push_spec d n s W Hr Hf) as (s'' & E' & W' & A & _ & F & _).
  rewrite E in E'. injection E' as ->. auto.
Qed.

(** X16. [pushMsg] is all or nothing. In a reachable message ring a call
    that runs to its end either returns false and leaves the object as it
    was, or returns true, takes exactly the bytes of the marker and of the
    payload from the free space and counts one more message. *)
Theorem pushMsg_all_or_nothing (t : msg_separatr_size_t) (n : nat)
  (s s' : CircularBufferMsgsT) (data : option (list byte)) (data_size : Z)
  (r : bool) :
  reachableMsgs t n s -> Z.of_nat (S n) < SIZE_MAX1 ->
  pushMsg t data data_size s = Some (r, s') ->
  (r = false /\ s' = s) \/
  (r = true /\
   numMsgs s' = numMsgs s + 1 /\
   bytesFree (base s') = bytesFree (base s) - sizeof t - data_size /\
   capacity (base s') = capacity (base s)).
Proof.
  intros R Hb. pose proof (reachableMsgs_storage t n s R) as Hst.
  destruct (reachableMsgs_count t n s R) as [Hn _]; [lia |].
  unfold pushMsg. run_monad.
  destruct (free_space (base s) <? wrap (data_size + sizeof t)).
  { intros E. injection E as <- <-. left. auto. }
  destruct (push (Some (marker_bytes t (narrow t data_size))) (sizeof t)
              (base s)) as [[ok1 s1] |] eqn:E1; [| discriminate].
  destruct ok1; [| discriminate]. fields.
  destruct (push data data_size s1) as [[ok2 s2] |] eqn:E2; [| discriminate].
  destruct ok2; cbn [andb]; [| discriminate]. fields.
  intros E. injection E as <- <-. right.
  assert (W : wf (base s)).
  { destruct Hst as [W | (A & _)]; [exact W |].
    destruct (push_true_pre _ _ _ _ E1) as (_ & _ & _ & Hr). lia. }
  destruct (push_true_free _ _ _ _ W E1) as (W1 & F1 & A1).
  destruct (push_true_free _ _ _ _ W1 E2) as (W2 & F2 & A2).
  unfold numMsgs, bytesFree, capacity. fields.
  rewrite wrap_small by lia.
  repeat split; lia.
Qed.

Lemma pushMsg_all_or_nothing_witness :
  (true = false /\ msgs16_abc = msgs16) \/
  (true = true /\
   numMsgs msgs16_abc = numMsgs msgs16 + 1 /\
   bytesFree (base msgs16_abc) = bytesFree (base msgs16) - sizeof uint16_t - 3 /\
   capacity (base msgs16_abc) = capacity (base msgs16)).
Proof.
  apply (pushMsg_all_or_nothing uint16_t 1 msgs16 msgs16_abc
           (Some (bytes_of [65; 66; 67])) 3 true).
  - apply (reachm_create uint16_t 0 CircularBufferMsgsT_init 16 [] msgs16);
      [apply reachm_init | size_ok | reflexivity].
  - reflexivity.
  - reflexivity.
Defined.

(** ** The space check of [pushMsg] in [size_t] *)

Lemma wrap_over (z : Z) :
  SIZE_MAX1 <= z < 2 * SIZE_MAX1 -> wrap z = z - SIZE_MAX1.
Proof.
  intros H. unfold wrap. symmetry.
  apply (Z.mod_unique z SIZE_MAX1 1); [left; lia | lia].
Qed.

(** C5. The space check of [pushMsg] overflows. For a payload size within
    [sizeof(marker)] of [2^64] the sum [data_size + sizeof(marker)] wraps
    round in [size_t]. On a reachable message ring of a capacity below
    [2^64 - sizeof(marker)] the payload and the marker together exceed the
    free bytes, yet whenever the wrapped sum fits, [pushMsg] gets past its
    space check and does not return false: it stops at an assertion, at the
    latest at [assert(is_ok)] after the payload [push] has returned false. *)
Theorem pushMsg_guard_overflow (t : msg_separatr_size_t) (n : nat)
  (s : CircularBufferMsgsT) (data : option (list byte)) (data_size : Z) :
  reachableMsgs t n s ->
  capacity (base s) < SIZE_MAX1 - sizeof t ->
  SIZE_MAX1 - sizeof t <= data_size < SIZE_MAX1 ->
  data_size + sizeof t - SIZE_MAX1 <= bytesFree (base s) ->
  bytesFree (base s) < data_size + sizeof t /\
  pushMsg t data data_size s = None.
Proof.
  intros R Hcap Hd Hw. unfold capacity, bytesFree in *.
  pose proof (sizeof_range t) as Hs.
  pose proof (reachableMsgs_storage t n s R) as Hst.
  assert (Hf : 0 <= free_space (base s) <= allocated_size (base s)).
  { destruct Hst as [[_ _ _ _ Hf _] | (A & F & _)]; lia. }
  split; [lia |].
  assert (Ew : wrap (data_size + sizeof t) = data_size + sizeof t - SIZE_MAX1)
    by (apply wrap_over; lia).
  unfold pushMsg. run_monad. rewrite Ew.
  destruct (Z.ltb_spec (free_space (base s))
              (data_size + sizeof t - SIZE_MAX1)); [lia |].
  destruct (push (Some (marker_bytes t (narrow t data_size))) (sizeof t)
              (base s)) as [[ok1 s1] |] eqn:E1; [| reflexivity].
  destruct ok1; [| reflexivity]. fields.
  assert (W : wf (base s)).
  { destruct Hst as [W | (A & _)]; [exact W |].
    destruct (push_true_pre _ _ _ _ E1) as (_ & _ & _ & Hr). lia. }
  destruct (push_true_free _ _ _ _ W E1) as ([_ _ _ _ Hf1 _] & F1 & A1).
  rewrite (push_no_space data data_size s1) by (unfold bytesFree; lia).
  reflexivity.
Qed.

Lemma pushMsg_guard_overflow_witness :
  bytesFree (base msgs16) < (SIZE_MAX1 - 2) + sizeof uint16_t /\
  pushMsg uint16_t (Some (bytes_of [1; 2; 3])) (SIZE_MAX1 - 2) msgs16 = None.
Proof.
  apply (pushMsg_guard_overflow uint16_t 1 msgs16
           (Some (bytes_of [1; 2; 3])) (SIZE_MAX1 - 2)).
  - apply (reachm_create uint16_t 0 CircularBufferMsgsT_init 16 [] msgs16).
    + apply reachm_init.
    + unfold is_size_t, SIZE_MAX1. lia.
    + reflexivity.
  - reflexivity.
  - vm_compute. split; [discriminate | reflexivity].
  - vm_compute. discriminate.
Defined.

Lemma pop_true_free (n : Z) (out : list byte) (s s' : CircularBuffer) :
  wf s -> 0 <= n -> pop n s = Some ((true, out), s') ->
  wf s' /\ free_space s' = free_space s + n /\
  allocated_size s' = allocated_size s /\ len out = n.
Proof.
  intros W Hn E. pose proof (pop_true_pre _ _ _ _ E) as Hu.
  destruct (pop_spec n s W (conj Hn Hu))
    as (s'' & E' & W' & _ & A & _ & F & _).
  rewrite E in E'. injection E' as -> ->.
  split; [exact W' |]. split; [exact F |]. split; [exact A |].
  pose proof (contents_length s W) as L.
  unfold len in *. rewrite length_firstn. lia.
Qed.

(** X17. [popMsg] is all or nothing, and it respects the receive size. In a
    reachable message ring (fewer than [2^64] calls) a call that runs to its
    end either returns 0, copies nothing and leaves the object as it was, or
    returns a length of at most [max_data_size], copies exactly that many
    bytes, gives them and the marker back to the free space and counts one
    message less. *)
Theorem popMsg_all_or_nothing (t : msg_separatr_size_t) (n : nat)
  (s s' : CircularBufferMsgsT) (max_data_size r : Z) (out : list byte) :
  reachableMsgs t n s -> Z.of_nat n < SIZE_MAX1 ->
  popMsg t max_data_size s = Some ((r, out), s') ->
  (r = 0 /\ out = [] /\ s' = s) \/
  (0 <= r <= max_data_size /\ len out = r /\
   numMsgs s' = numMsgs s - 1 /\
   bytesFree (base s') = bytesFree (base s) + sizeof t + r /\
   capacity (base s') = capacity (base s)).
Proof.
  intros R Hb. pose proof (reachableMsgs_storage t n s R) as Hst.
  destruct (reachableMsgs_count t n s R Hb) as [Hn Hz].
  pose proof (sizeof_range t) as Hsz. unfold popMsg. run_monad.
  destruct (Z.ltb_spec (bytesUsed (base s)) (sizeof t)) as [Hu | Hu].
  { intros E. injection E as <- <- <-. left. auto. }
  assert (W : wf (base s)).
  { destruct Hst as [W | U]; [exact W |].
    apply unallocated_unused in U. lia. }
  assert (Hpos : 1 <= nmsgs s).
  { destruct (Z.eq_dec (nmsgs s) 0) as [Z0 | Z0]; [| lia].
    destruct (Hz Z0) as (_ & _ & Hf). unfold bytesUsed in Hu.
    rewrite Hf, Z.sub_diag in Hu. change (wrap 0) with 0 in Hu. lia. }
  destruct (pop_keeps (sizeof t) (base s)) as ([ok1 out1] & s1 & E1 & _).
  rewrite E1. cbn [fst snd]. destruct ok1; [| discriminate]. fields.
  destruct (pop_result _ _ _ _ E1) as (B1 & A1 & _).
  destruct (pop_true_free (sizeof t) out1 (base s) s1 W) as (W1 & F1 & _);
    [lia | exact E1 |].
  destruct (Z.ltb_spec max_data_size (of_bytes out1)) as [Hsmall | Hfit].
  { unfold loadCheckPoint, saveCheckPoint. run_monad.
    cbn [cp_head cp_tail cp_free_space]. rewrite B1, A1.
    intros E. injection E as <- <- <-. left.
    destruct s as [[b a h tl f] k]. auto. }
  destruct (pop_keeps (of_bytes out1) s1) as ([ok2 out2] & s2 & E2 & _).
  fields. rewrite E2. cbn [fst snd]. destruct ok2; [| discriminate]. fields.
  destruct (pop_true_free _ _ _ _ W1 (of_bytes_nonneg out1) E2)
    as (W2 & F2 & A2 & L2).
  rewrite (wrap_small (nmsgs s - 1)) by lia.
  pose proof (of_bytes_nonneg out1) as Hr.
  assert (Hres : forall b2,
    free_space b2 = free_space s2 -> allocated_size b2 = allocated_size s2 ->
    0 <= of_bytes out1 <= max_data_size /\ len out2 = of_bytes out1 /\
    numMsgs (mkCircularBufferMsgsT b2 (nmsgs s - 1)) = numMsgs s - 1 /\
    bytesFree b2 = bytesFree (base s) + sizeof t + of_bytes out1 /\
    capacity b2 = capacity (base s)).
  { intros b2 Fb Ab. unfold numMsgs, bytesFree, capacity. fields.
    repeat split; lia. }
  destruct (Z.ltb_spec 0 (nmsgs s - 1)); cbn [orb].
  - destruct (Z.eqb_spec (nmsgs s - 1) 0); [lia |].
    intros E. injection E as <- <- <-. right.
    apply (Hres s2); reflexivity.
  - destruct (empty s2); [| discriminate].
    destruct (Z.eqb_spec (nmsgs s - 1) 0); [| lia].
    unfold clear. run_monad.
    intros E. injection E as <- <- <-. right. fields.
    apply (Hres (mkCircularBuffer (buffer s2) (allocated_size s2) 0 0
                   (free_space s2))); reflexivity.
Qed.

Lemma popMsg_all_or_nothing_witness :
  (3 = 0 /\ bytes_of [65; 66; 67] = [] /\ msgs16_drained = msgs16_abc) \/
  (0 <= 3 <= 10 /\ len (bytes_of [65; 66; 67]) = 3 /\
   numMsgs msgs16_drained = numMsgs msgs16_abc - 1 /\
   bytesFree (base msgs16_drained)
   = bytesFree (base msgs16_abc) + sizeof uint16_t + 3 /\
   capacity (base msgs16_drained) = capacity (base msgs16_abc)).
Proof.
  apply (popMsg_all_or_nothing uint16_t 2 msgs16_abc msgs16_drained 10 3
           (bytes_of [65; 66; 67])).
  - apply (reachm_pushMsg uint16_t 1 msgs16
             (Some (bytes_of [65; 66; 67])) 3 true msgs16_abc).
    + apply (reachm_create uint16_t 0 CircularBufferMsgsT_init 16 []
               msgs16); [apply reachm_init | size_ok | reflexivity].
    + size_ok.
    + reflexivity.
  - reflexivity.
  - reflexivity.
Defined.

(** ** [destroy] on a message ring *)

Lemma wrap_nonzero (z : Z) :
  0 < z < 2 * SIZE_MAX1 -> z <> SIZE_MAX1 -> 0 < wrap z.
Proof.
  intros Hz Hne. destruct (Z.lt_ge_cases z SIZE_MAX1) as [H | H].
  - rewrite wrap_small by lia. lia.
  - rewrite wrap_over by lia. lia.
Qed.

Lemma pushMsg_no_storage (t : msg_separatr_size_t)
  (data : option (list byte)) (data_size : Z) (s : CircularBufferMsgsT) :
  free_space (base s) = 0 -> is_size_t data_size ->
  pushMsg t data data_size s
  = if data_size =? SIZE_MAX1 - sizeof t then None else Some (false, s).
Proof.
  intros F [H0 H1]. pose proof (sizeof_range t) as Hs.
  destruct (Z.eqb_spec data_size (SIZE_MAX1 - sizeof t)) as [-> | Hne].
  - unfold pushMsg. run_monad.
    replace (SIZE_MAX1 - sizeof t + sizeof t) with SIZE_MAX1 by lia.
    change (wrap SIZE_MAX1) with 0. rewrite F. cbn [Z.ltb Z.compare].
    rewrite push_no_space by (unfold bytesFree; lia). reflexivity.
  - apply pushMsg_no_space. unfold bytesFree. rewrite F.
    apply wrap_nonzero; unfold SIZE_MAX1 in *; lia.
Qed.

(** X18. On a message ring whose storage [destroy] has not released before,
    [destroy] runs to its end and releases the bytes but keeps the message
    count: [numMsgs] still returns the old value although no byte is used.
    Afterwards [popMsg] returns 0 and changes nothing, and [pushMsg] of any
    [size_t] payload size returns false and changes nothing, except for the
    one size [2^64 - sizeof(marker)], whose sum with the marker wraps to 0:
    there [pushMsg] stops at an assertion. *)
Theorem destroyMsgs_keeps_count (t : msg_separatr_size_t)
  (s : CircularBufferMsgsT) :
  buffer (base s) <> dangling ->
  exists s',
    destroyMsgs s = Some (tt, s') /\
    numMsgs s' = numMsgs s /\
    bytesUsed (base s') = 0 /\ empty (base s') = true /\
    (forall max_data_size,
       popMsg t max_data_size s' = Some ((0, []), s')) /\
    (forall data data_size,
       is_size_t data_size ->
       pushMsg t data data_size s'
       = if data_size =? SIZE_MAX1 - sizeof t then None
         else Some (false, s')).
Proof.
  intros Hb. pose proof (sizeof_range t) as Hs.
  unfold destroyMsgs, inherited, destroy, clear. cbv [bind get].
  destruct (buffer (base s)) as [| b |]; [| | contradiction];
    cbn [release]; run_monad;
    (eexists; split; [reflexivity |]; fields;
     split; [reflexivity |]; split; [reflexivity |];
     split; [reflexivity |]; split;
     [intros max_data_size; apply popMsg_no_data; fields;
      change (bytesUsed _) with 0; lia
     | intros data data_size Hd; apply pushMsg_no_storage;
       [reflexivity | exact Hd]]).
Qed.

Lemma destroyMsgs_keeps_count_witness :
  exists s',
    destroyMsgs msgs16_abc = Some (tt, s') /\
    numMsgs s' = numMsgs msgs16_abc /\
    bytesUsed (base s') = 0 /\ empty (base s') = true /\
    (forall max_data_size,
       popMsg uint16_t max_data_size s' = Some ((0, []), s')) /\
    (forall data data_size,
       is_size_t data_size ->
       pushMsg uint16_t data data_size s'
       = if data_size =? SIZE_MAX1 - sizeof uint16_t then None
         else Some (false, s')).
Proof.
  apply (destroyMsgs_keeps_count uint16_t msgs16_abc).
  vm_compute. discriminate.
Defined.

(** * The rings as queues *)

(** X19. A reachable ring is a first-in first-out queue of bytes: a [push]
    that returns true appends the pushed array to the bytes held, and a
    [pop] that returns true removes the bytes it hands out from their
    front. *)
Theorem ring_is_byte_queue (s : CircularBuffer) :
  reachable s ->
  (forall d s', push (Some d) (len d) s = Some (true, s') ->
     contents s' = contents s ++ d) /\
  (forall n out s', is_size_t n -> pop n s = Some ((true, out), s') ->
     contents s = out ++ contents s').
Proof.
  intros R. pose proof (reachable_wf s R) as W. split.
  - intros d s' E.
    destruct (push_true_pre _ _ _ _ E) as (_ & _ & Hf & Hr).
    destruct (push_spec d (len d) s W Hr Hf)
      as (s'' & E' & _ & _ & _ & _ & _ & C).
    rewrite E in E'. injection E' as ->. exact (C eq_refl).
  - intros n out s' [Hn _] E. pose proof (pop_true_pre _ _ _ _ E) as Hu.
    destruct (pop_spec n s W (conj Hn Hu))
      as (s'' & E' & _ & _ & _ & _ & _ & _ & C).
    rewrite E in E'. injection E' as -> ->. rewrite C.
    symmetry. apply firstn_skipn.
Qed.

Lemma ring_is_byte_queue_witness :
  (forall d s', push (Some d) (len d) ring10_abc = Some (true, s') ->
     contents s' = contents ring10_abc ++ d) /\
  (forall n out s', is_size_t n ->
     pop n ring10_abc = Some ((true, out), s') ->
     contents ring10_abc = out ++ contents s').
Proof.
  apply (ring_is_byte_queue ring10_abc).
  apply (reach_push ring10 (Some (bytes_of [65; 66; 67])) 3).
  - apply (reach_create 10 []); [size_ok | reflexivity].
  - size_ok.
  - reflexivity.
Defined.

Lemma pushMsg_true_free (t : msg_separatr_size_t)
  (data : option (list byte)) (data_size : Z) (s s' : CircularBufferMsgsT) :
  wf (base s) ->
  pushMsg t data data_size s = Some (true, s') ->
  wf (base s') /\
  free_space (base s') = free_space (base s) - sizeof t - data_size.
Proof.
  intros W. unfold pushMsg. run_monad.
  destruct (free_space (base s) <? wrap (data_size + sizeof t));
    [discriminate |].
  destruct (push (Some (marker_bytes t (narrow t data_size))) (sizeof t)
              (base s)) as [[ok1 s1] |] eqn:E1; [| discriminate].
  destruct ok1; [| discriminate]. fields.
  destruct (push data data_size s1) as [[ok2 s2] |] eqn:E2; [| discriminate].
  destruct ok2; cbn [andb]; [| discriminate]. fields.
  intros E. injection E as <-. fields.
  destruct (push_true_free _ _ _ _ W E1) as (W1 & F1 & _).
  destruct (push_true_free _ _ _ _ W1 E2) as (W2 & F2 & _).
  split; [exact W2 | lia].
Qed.

(** X20. A well-framed message ring is a first-in first-out queue of
    payloads, and stays one. A [pushMsg] of a payload of a length from 1 up
    to the marker's range that returns true appends the payload. A [popMsg]
    that runs to its end either returns 0, copies nothing and changes
    nothing, which happens exactly when the queue is empty or its first
    payload is longer than the receive size, or removes the first payload
    and returns its length and bytes. *)
Theorem message_ring_is_queue (t : msg_separatr_size_t)
  (s : CircularBufferMsgsT) (q : list (list byte)) :
  framed t s q ->
  (forall d s', 1 <= len d < marker_range t ->
     pushMsg t (Some d) (len d) s = Some (true, s') ->
     framed t s' (q ++ [d])) /\
  (forall max_data_size r out s',
     popMsg t max_data_size s = Some ((r, out), s') ->
     (r = 0 /\ out = [] /\ s' = s /\
      (q = [] \/ exists d q', q = d :: q' /\ max_data_size < len d)) \/
     (exists q', q = out :: q' /\ r = len out /\ len out <= max_data_size /\
                 framed t s' q')).
Proof.
  intros Fr. split.
  - intros d s' Hd E. pose proof Fr as [W _ _ _].
    destruct (pushMsg_true_free t _ _ s s' W E) as ([_ _ _ _ Hf' _] & F').
    destruct (pushMsg_framed t s q d Fr Hd) as (s'' & E' & Fr');
      [unfold bytesFree; lia |].
    rewrite E in E'. injection E' as ->. exact Fr'.
  - intros max_data_size r out s' E. destruct q as [| d q'].
    + left. destruct (framed_used t s [] Fr) as (U & _).
      cbn [records_size fold_right] in U.
      rewrite popMsg_no_data in E
        by (pose proof (sizeof_range t); lia).
      injection E as <- <- <-. auto.
    + destruct (popMsg_framed t s d q' max_data_size Fr) as [Hsmall Hfit].
      destruct (Z.lt_ge_cases max_data_size (len d)) as [H | H].
      * left. rewrite (Hsmall H) in E. injection E as <- <- <-.
        repeat split; try reflexivity. right. exists d, q'. auto.
      * right. destruct (Hfit H) as (s'' & E' & Fr').
        rewrite E in E'. injection E' as -> -> ->.
        exists q'. auto.
Qed.

Lemma message_ring_is_queue_witness :
  (forall d s', 1 <= len d < marker_range uint16_t ->
     pushMsg uint16_t (Some d) (len d) msgs16_abc = Some (true, s') ->
     framed uint16_t s' ([bytes_of [65; 66; 67]] ++ [d])) /\
  (forall max_data_size r out s',
     popMsg uint16_t max_data_size msgs16_abc = Some ((r, out), s') ->
     (r = 0 /\ out = [] /\ s' = msgs16_abc /\
      ([bytes_of [65; 66; 67]] = [] \/
       exists d q', [bytes_of [65; 66; 67]] = d :: q' /\
                    max_data_size < len d)) \/
     (exists q', [bytes_of [65; 66; 67]] = out :: q' /\ r = len out /\
                 len out <= max_data_size /\ framed uint16_t s' q')).
Proof.
  apply (message_ring_is_queue uint16_t msgs16_abc [bytes_of [65; 66; 67]]).
  constructor.
  - constructor.
    + eexists. split; reflexivity.
    + reflexivity.
    + vm_compute. split; discriminate.
    + vm_compute. split; discriminate.
    + vm_compute. split; discriminate.
    + left. reflexivity.
  - reflexivity.
  - reflexivity.
  - constructor; [reflexivity | constructor].
Defined.

(** X21. Whenever [create] on a new message ring returns, for a [size_t]
    size and whatever the allocated bytes hold, it leaves an empty queue: no
    message, no used byte, the whole capacity free, both cursors at 0, and a
    ring that is valid exactly when the size is positive. *)
Theorem createMsgs_gives_empty_queue (t : msg_separatr_size_t)
  (new_size : Z) (junk : list byte) (s : CircularBufferMsgsT) :
  is_size_t new_size ->
  createMsgs new_size junk CircularBufferMsgsT_init = Some (tt, s) ->
  framed t s [] /\
  numMsgs s = 0 /\ bytesUsed (base s) = 0 /\
  bytesFree (base s) = new_size /\ capacity (base s) = new_size /\
  head (base s) = 0 /\ tail (base s) = 0 /\
  isValid (base s) = (0 <? new_size).
Proof.
  intros Hn E.
  destruct (createMsgs_framed t new_size junk s Hn E) as [Fr F].
  destruct (framed_used t s [] Fr) as (U & N & _).
  split; [exact Fr |]. split; [exact N |]. split; [exact U |].
  revert E.
  unfold createMsgs, inherited, create, CircularBufferMsgsT_init,
    CircularBuffer_init. run_monad. cbn [Z.eqb nonnull negb].
  intros E. injection E as <-. repeat split.
Qed.

Lemma createMsgs_gives_empty_queue_witness :
  framed uint16_t msgs16 [] /\
  numMsgs msgs16 = 0 /\ bytesUsed (base msgs16) = 0 /\
  bytesFree (base msgs16) = 16 /\ capacity (base msgs16) = 16 /\
  head (base msgs16) = 0 /\ tail (base msgs16) = 0 /\
  isValid (base msgs16) = (0 <? 16).
Proof.
  apply (createMsgs_gives_empty_queue uint16_t 16 [] msgs16).
  - unfold is_size_t, SIZE_MAX1. lia.
  - reflexivity.
Defined.
